(** * mesh-transformer-jax: the sharded causal transformer of
    [transformer_shard.py]

    A shallow embedding of [src/transformer_shard.py] and the properties
    its specification states about it.

    - Part I embeds the program: the precision casters over parameter
      trees, the sharded embedding, the fused attention/feed-forward block,
      the sharded output head and the training-state lifecycle of
      [CausalTransformer].
    - Part II states and proves the properties.

    Arithmetic on activations is carried out over the real numbers: the
    rounding of the 16-bit and 32-bit formats is not part of the numeric
    kernels.  A row is a list and an array of rank 2 a list of rows; the
    shapes that the arrays of the source carry (Haiku creates [w] with one
    row per input column) are hypotheses of the theorems that need them.
    Parameter trees keep the [dtype] tag of every leaf, since [to_f32] and
    [to_bf16] dispatch on it; what a cast or an array operation does to the
    contents of a leaf is left to an interface ([ArrayLib], [TrainLib]).
    The element types of the parameters that the forward pass creates are
    followed separately ([Dtypes]), on element types alone. *)

From Stdlib Require Import String List ZArith Bool Lia.
From Stdlib Require Import Reals Lra.
Import ListNotations.

Set Implicit Arguments.
Set Warnings "-register-all".

(* ===================================================================== *)
(** * Part I: the program                                                 *)
(* ===================================================================== *)

(** Failing Python code (a raised exception) is [None]. *)
Definition obind {A B : Type} (o : option A) (k : A -> option B) : option B :=
  match o with
  | Some a => k a
  | None => None
  end.

Notation "x <- e ;; k" := (obind e (fun x => k))
  (at level 61, e at next level, right associativity).

(** A comprehension that fails as soon as one element does. *)
Fixpoint omap {A B : Type} (f : A -> option B) (l : list A) : option (list B) :=
  match l with
  | [] => Some []
  | a :: l' => b <- f a ;; bs <- omap f l' ;; Some (b :: bs)
  end.

(* --------------------------------------------------------------------- *)
(** ** Parameter trees and the precision casters                          *)
(* --------------------------------------------------------------------- *)

Module Precision.

(** The element types the program tests for, and any other one. *)
Inductive dtype : Type :=
| float32
| bfloat16
| int32.

Definition dtype_eqb (a b : dtype) : bool :=
  match a, b with
  | float32, float32 => true
  | bfloat16, bfloat16 => true
  | int32, int32 => true
  | _, _ => false
  end.

(** What the array library does to the contents of a leaf.  The contents
    of an array of element type [d] are a [payload d]; [cast from to]
    converts them from one element type to another, and [zeros] is the
    contents of [jnp.zeros_like]. *)
Class ArrayLib : Type := {
  payload : dtype -> Type;
  cast : forall from to : dtype, payload from -> payload to;
  zeros : forall d : dtype, payload d -> payload d
}.

Section Trees.
Context {L : ArrayLib}.

(** A [jnp] array: its [dtype] and its contents. *)
Record array : Type := Array {
  dt : dtype;
  buf : payload dt
}.

(** [x.astype(d)] *)
Definition astype (d : dtype) (x : array) : array :=
  {| dt := d; buf := cast (dt x) d (buf x) |}.

(** [jnp.zeros_like(a)] keeps the dtype. *)
Definition zeros_like (a : array) : array :=
  {| dt := dt a; buf := zeros (dt a) (buf a) |}.

(** A pytree of dictionaries: the leaves are arrays, a dictionary lists its
    items in the order in which [jax] flattens them (sorted by key). *)
Inductive tree : Type :=
| Leaf (a : array)
| Dict (items : list (string * tree)).

(** [jax.tree_map(f, t)] *)
Fixpoint tree_map (f : array -> array) (t : tree) : tree :=
  match t with
  | Leaf a => Leaf (f a)
  | Dict items => Dict (map (fun kv => (fst kv, tree_map f (snd kv))) items)
  end.

(** [jax.tree_multimap(f, a, b)]: raises when the two trees differ in
    structure. *)
Fixpoint tree_multimap (f : array -> array -> array) (a b : tree) : option tree :=
  match a, b with
  | Leaf x, Leaf y => Some (Leaf (f x y))
  | Dict xs, Dict ys =>
      option_map Dict
        ((fix items (xs : list (string * tree)) (ys : list (string * tree))
            : option (list (string * tree)) :=
            match xs, ys with
            | [], [] => Some []
            | kx :: xs', ky :: ys' =>
                if String.eqb (fst kx) (fst ky) then
                  r <- tree_multimap f (snd kx) (snd ky) ;;
                  rs <- items xs' ys' ;;
                  Some ((fst kx, r) :: rs)
                else None
            | _, _ => None
            end) xs ys)
  | _, _ => None
  end.

(** [to_f32], line 10. *)
Definition to_f32 (t : tree) : tree :=
  tree_map (fun x => if dtype_eqb (dt x) bfloat16 then astype float32 x else x) t.

(** [to_bf16], line 13. *)
Definition to_bf16 (t : tree) : tree :=
  tree_map (fun x => if dtype_eqb (dt x) float32 then astype bfloat16 x else x) t.

(** Every leaf of the tree satisfies [P]. *)
Fixpoint all_leaves (P : array -> Prop) (t : tree) : Prop :=
  match t with
  | Leaf a => P a
  | Dict items =>
      (fix go (l : list (string * tree)) : Prop :=
         match l with
         | [] => True
         | kv :: l' => all_leaves P (snd kv) /\ go l'
         end) items
  end.

(** The structure of a tree: its keys, without the leaves' contents. *)
Inductive skeleton : Type :=
| SLeaf
| SDict (items : list (string * skeleton)).

Fixpoint skel (t : tree) : skeleton :=
  match t with
  | Leaf _ => SLeaf
  | Dict items => SDict (map (fun kv => (fst kv, skel (snd kv))) items)
  end.

End Trees.

End Precision.

(* --------------------------------------------------------------------- *)
(** ** Numeric kernels: [jnp], [jax.nn], [jax.lax] collectives, [hk.Linear]
       and [hk.LayerNorm]                                                  *)
(* --------------------------------------------------------------------- *)

Module Kernels.
Local Open Scope R_scope.

(** [jnp.sum] over the last axis. *)
Definition rsum (v : list R) : R := fold_right Rplus 0 v.

(** [x.max(-1)]: a reduction of an empty axis raises. *)
Fixpoint rmax (v : list R) : option R :=
  match v with
  | [] => None
  | x :: v' =>
      match rmax v' with
      | None => Some x
      | Some m => Some (Rmax x m)
      end
  end.

(** Elementwise product of two rows. *)
Definition rmul (a b : list R) : list R :=
  map (fun p => fst p * snd p) (combine a b).

Definition radd (a b : list R) : list R :=
  map (fun p => fst p + snd p) (combine a b).

Definition dot (a b : list R) : R := rsum (rmul a b).

(** Column [j] of a matrix held as a list of rows. *)
Definition column (j : nat) (w : list (list R)) : list R :=
  map (fun row => nth j row 0) w.

(** [jnp.arange(0, n) + start] *)
Definition arange_from (start n : nat) : list Z :=
  map (fun i => Z.of_nat i + Z.of_nat start)%Z (seq 0 n).

(** The token [tok] lies in the index range [start, start + n). *)
Definition in_range (start n : nat) (tok : Z) : bool :=
  (Z.of_nat start <=? tok)%Z && (tok <? Z.of_nat (start + n))%Z.

(** [(index.reshape(1, -1) == x.reshape(-1, 1)).astype(dtype)], the row
    of one token. *)
Definition onehot (index : list Z) (tok : Z) : list R :=
  map (fun i => if Z.eqb i tok then 1 else 0) index.

(** How an elementwise operation pairs the rows of two arrays of rank 2 and
    one width: row by row when they have as many rows, the one row of
    either with every row of the other, and no other way (it raises). *)
Definition broadcast_rows {A B : Type} (xs : list A) (ys : list B)
  : option (list (A * B)) :=
  if Nat.eqb (length xs) (length ys) then Some (combine xs ys)
  else match xs, ys with
       | [x], _ => Some (map (fun y => (x, y)) ys)
       | _, [y] => Some (map (fun x => (x, y)) xs)
       | _, _ => None
       end.

(** The collectives of [jax.lax] over a named axis: the list holds the
    value of every member of the axis, in axis order, and every member
    receives the result. *)
Definition psum (vals : list R) : R := rsum vals.
Definition pmax (vals : list R) : option R := rmax vals.
Definition pmean (vals : list R) : R := rsum vals / INR (length vals).

(** [pmean] of rows, elementwise. *)
Definition pmean_row (vals : list (list R)) : list R :=
  match vals with
  | [] => []
  | v :: _ => map (fun j => pmean (column j vals)) (seq 0 (length v))
  end.

(** [pmean] of arrays of shape [(tokens, width)], elementwise. *)
Definition pmean_rows (vals : list (list (list R))) : list (list R) :=
  match vals with
  | [] => []
  | a :: _ =>
      map (fun t => pmean_row (map (fun a' => nth t a' []) vals))
          (seq 0 (length a))
  end.

(** An [hk.Linear] module as [__init__] builds it, and its parameters:
    [w] has one row per input and [output_size] columns; [b] is read only
    when the module has a bias. *)
Record Linear : Type := {
  output_size : nat;
  with_bias : bool
}.

Record LinearParams : Type := {
  w : list (list R);
  b : list R
}.

(** [hk.Linear.__call__] on one row: [x @ w + b]. *)
Definition linear (m : Linear) (p : LinearParams) (x : list R) : list R :=
  map (fun j => dot x (column j (w p)) + (if with_bias m then nth j (b p) 0 else 0))
      (seq 0 (output_size m)).

(** [hk.LayerNorm(-1, True, True)] on one row, with its default
    [eps = 1e-5]. *)
Record LayerNormParams : Type := {
  scale : list R;
  offset : list R
}.

Definition ln_eps : R := 1 / 100000.

Definition row_mean (x : list R) : R := rsum x / INR (length x).

Definition row_var (x : list R) : R :=
  rsum (map (fun v => (v - row_mean x) * (v - row_mean x)) x) / INR (length x).

Definition layer_norm (p : LayerNormParams) (x : list R) : list R :=
  map (fun j =>
         nth j (scale p) 0 * (nth j x 0 - row_mean x) / sqrt (row_var x + ln_eps)
         + nth j (offset p) 0)
      (seq 0 (length x)).

(** [jax.nn.softmax] over the last axis. *)
Definition softmax (x : list R) : option (list R) :=
  m <- rmax x ;;
  let unnormalized := map (fun v => exp (v - m)) x in
  Some (map (fun u => u / rsum unnormalized) unnormalized).

(** [jax.nn.gelu], whose default is the tanh approximation. *)
Definition gelu (x : R) : R :=
  x / 2 * (1 + tanh (sqrt (2 / PI) * (x + 44715 / 1000000 * (x * x * x)))).

End Kernels.

(* --------------------------------------------------------------------- *)
(** ** [EmbeddingShard]                                                   *)
(* --------------------------------------------------------------------- *)

Module Embedding.
Import Kernels.
Local Open Scope R_scope.

Record EmbeddingShard : Type := {
  in_dim : nat;
  out_dim : nat;
  dim_per_shard : nat;
  shards : nat;
  proj : Linear
}.

(** [__init__], lines 18-27.  [in_dim % shards] raises for [shards = 0]
    and the assertion fails when the vocabulary does not divide. *)
Definition init (in_dim out_dim shards : nat) : option EmbeddingShard :=
  if Nat.eqb shards 0 then None
  else if Nat.eqb (in_dim mod shards) 0 then
    Some {| in_dim := in_dim;
            out_dim := out_dim;
            dim_per_shard := in_dim / shards;
            shards := shards;
            proj := {| output_size := out_dim; with_bias := true |} |}
  else None.

Section Call.
Variable e : EmbeddingShard.

(** Lines 30-31 on the shard with [axis_index('shard') = s]. *)
Definition shard_start_index (s : nat) : nat := (s * dim_per_shard e)%nat.

Definition shard_index (s : nat) : list Z :=
  arange_from (shard_start_index s) (dim_per_shard e).

(** Line 33: [proj_out] of one token on shard [s], whose parameters are
    [p]. *)
Definition proj_out (s : nat) (p : LinearParams) (tok : Z) : list R :=
  linear (proj e) p (onehot (shard_index s) tok).

(** Line 35 for one token: the [pmean] over the shards, [params] holding the
    parameters of shard 0, 1, ... *)
Definition call_token (params : list LinearParams) (tok : Z) : list R :=
  pmean_row (map (fun sp => proj_out (fst sp) (snd sp) tok)
                 (combine (seq 0 (length params)) params)).

(** [__call__]: one row per token of [x.reshape(-1, 1)]. *)
Definition call (params : list LinearParams) (x : list Z) : list (list R) :=
  map (call_token params) x.

End Call.

(** The single table that the shards' row blocks make up, and a look-up
    in it (the reference the sharded embedding is compared with). *)
Definition full_table (params : list LinearParams) : list (list R) :=
  concat (map w params).

Definition table_lookup (table : list (list R)) (width : nat) (tok : Z) : list R :=
  map (fun j => nth j (nth (Z.to_nat tok) table []) 0) (seq 0 width).

End Embedding.

(* --------------------------------------------------------------------- *)
(** ** [TransformerLayerShard]                                            *)
(* --------------------------------------------------------------------- *)

Module Layer.
Import Kernels.
Local Open Scope R_scope.

Record TransformerLayerShard : Type := {
  dim : nat;
  dim_per_head : nat;
  heads_per_shard : nat;
  dim_per_shard : nat;
  q : Linear;
  v : Linear;
  k : Linear;
  o : Linear;
  dense_proj : Linear;
  dense_proj_o : Linear
}.

(** [__init__], lines 40-59. *)
Definition init (dim heads shards : nat) : option TransformerLayerShard :=
  if Nat.eqb heads 0 || Nat.eqb shards 0 then None
  else if Nat.eqb (dim mod heads) 0 && Nat.eqb (heads mod shards) 0 then
    Some {| dim := dim;
            dim_per_head := dim / heads;
            heads_per_shard := heads / shards;
            dim_per_shard := dim / shards;
            q := {| output_size := dim / shards; with_bias := false |};
            v := {| output_size := dim / shards; with_bias := false |};
            k := {| output_size := dim / shards; with_bias := false |};
            o := {| output_size := dim; with_bias := false |};
            dense_proj := {| output_size := dim / shards * 4; with_bias := true |};
            dense_proj_o := {| output_size := dim; with_bias := true |} |}
  else None.

(** The parameters of one shard of the layer. *)
Record LayerParams : Type := {
  ln_p : LayerNormParams;
  q_p : LinearParams;
  v_p : LinearParams;
  k_p : LinearParams;
  o_p : LinearParams;
  dense_proj_p : LinearParams;
  dense_proj_o_p : LinearParams
}.

(** A mask is a square array [mask[t][T]]. *)
Definition mask_t : Type := list (list R).

(** [attention_logits += mask]: the mask broadcasts over the heads; adding
    [None] to an array raises. *)
Definition iadd_mask (logits : list (list (list R))) (mask : option mask_t)
  : option (list (list (list R))) :=
  match mask with
  | None => None
  | Some m => Some (map (fun head => map (fun rr => radd (fst rr) (snd rr)) (combine head m)) logits)
  end.

Section Call.
Variable l : TransformerLayerShard.
Variable p : LayerParams.

(** [.reshape((-1, heads_per_shard, dim_per_head))] of one token's row of
    width [dim_per_shard = heads_per_shard * dim_per_head]. *)
Definition split_heads (row : list R) : list (list R) :=
  map (fun h => firstn (dim_per_head l) (skipn (h * dim_per_head l) row))
      (seq 0 (heads_per_shard l)).

(** Line 62: [x = self.ln(x)]. *)
Definition normed (x : list (list R)) : list (list R) :=
  map (layer_norm (ln_p p)) x.

(** Lines 64-66, from the rebound (normalized) [x]. *)
Definition q_heads (xn : list (list R)) := map (fun r => split_heads (linear (q l) (q_p p) r)) xn.
Definition v_heads (xn : list (list R)) := map (fun r => split_heads (linear (v l) (v_p p) r)) xn.
Definition k_heads (xn : list (list R)) := map (fun r => split_heads (linear (k l) (k_p p) r)) xn.

(** Lines 68-71: [einsum("thd,Thd->htT")] divided by [sqrt(dim_per_head)]. *)
Definition attention_logits (xn : list (list R)) : list (list (list R)) :=
  map (fun h =>
         map (fun qt =>
                map (fun kT => dot (nth h qt []) (nth h kT []) / sqrt (INR (dim_per_head l)))
                    (k_heads xn))
             (q_heads xn))
      (seq 0 (heads_per_shard l)).

(** Lines 73-74: [if mask is None: attention_logits += mask]. *)
Definition masked_logits (xn : list (list R)) (mask : option mask_t)
  : option (list (list (list R))) :=
  match mask with
  | None => iadd_mask (attention_logits xn) mask
  | Some _ => Some (attention_logits xn)
  end.

(** Line 76: the softmax over the key axis, which has one entry per token.
    The maximum that [jax.nn.softmax] takes over that axis raises when the
    axis is empty, whatever the other axes of the array. *)
Definition attention_weights (xn : list (list R)) (mask : option mask_t)
  : option (list (list (list R))) :=
  logits <- masked_logits xn mask ;;
  if Nat.eqb (length xn) 0 then None
  else omap (fun head => omap softmax head) logits.

(** Line 77: [einsum("htT,Thd->thd")] reshaped to [(-1, dim_per_shard)]. *)
Definition attention_vec (weights : list (list (list R))) (xn : list (list R))
  : list (list R) :=
  map (fun t =>
         concat
           (map (fun h =>
                   map (fun d =>
                          rsum (map (fun wv => fst wv * nth d (nth h (snd wv) []) 0)
                                    (combine (nth t (nth h weights []) []) (v_heads xn))))
                       (seq 0 (dim_per_head l)))
                (seq 0 (heads_per_shard l))))
      (seq 0 (length xn)).

(** Lines 64-79: the attention branch, from the normalized rows. *)
Definition attn_out (xn : list (list R)) (mask : option mask_t)
  : option (list (list R)) :=
  weights <- attention_weights xn mask ;;
  Some (map (linear (o l) (o_p p)) (attention_vec weights xn)).

(** Lines 81-83: the feed-forward branch, from an input row. *)
Definition dense_out (r : list R) : list R :=
  linear (dense_proj_o l) (dense_proj_o_p p)
         (map gelu (linear (dense_proj l) (dense_proj_p p) r)).

(** Lines 62-85 up to the collective: [attn_out + dense_out] of the shard. *)
Definition local_out (x : list (list R)) (mask : option mask_t)
  : option (list (list R)) :=
  let xn := normed x in
  weights <- attention_weights xn mask ;;
  let attn_out := map (linear (o l) (o_p p)) (attention_vec weights xn) in
  Some (map (fun ad => radd (fst ad) (snd ad)) (combine attn_out (map dense_out xn))).

(** The reading of the specification that is compared with [local_out]:
    the feed-forward branch fed with the block input as it was before
    normalization. *)
Definition spec_local_out_raw_feed_forward (x : list (list R)) (mask : option mask_t)
  : option (list (list R)) :=
  let xn := normed x in
  weights <- attention_weights xn mask ;;
  let attn_out := map (linear (o l) (o_p p)) (attention_vec weights xn) in
  Some (map (fun ad => radd (fst ad) (snd ad)) (combine attn_out (map dense_out x))).

End Call.

(** [__call__]: line 85 combines the shards, [params] holding the
    parameters of shard 0, 1, ... *)
Definition call (l : TransformerLayerShard) (params : list LayerParams)
  (x : list (list R)) (mask : option mask_t) : option (list (list R)) :=
  outs <- omap (fun p => local_out l p x mask) params ;;
  Some (pmean_rows outs).

End Layer.

(* --------------------------------------------------------------------- *)
(** ** [ProjectionShard]                                                  *)
(* --------------------------------------------------------------------- *)

Module Projection.
Import Kernels.
Local Open Scope R_scope.

Record ProjectionShard : Type := {
  dim : nat;
  dim_per_shard : nat;
  shards : nat;
  proj : Linear
}.

(** [__init__], lines 89-99. *)
Definition init (out_dim shards : nat) : option ProjectionShard :=
  if Nat.eqb shards 0 then None
  else if Nat.eqb (out_dim mod shards) 0 then
    Some {| dim := out_dim;
            dim_per_shard := out_dim / shards;
            shards := shards;
            proj := {| output_size := out_dim / shards; with_bias := true |} |}
  else None.

(** The parameters of one shard of the head. *)
Record ProjParams : Type := {
  ln_p : LayerNormParams;
  proj_p : LinearParams
}.

Section Call.
Variable m : ProjectionShard.
Variable params : list ProjParams.

(** [__call__], lines 101-107, for one token: normalize, project, gather
    the slices of all shards and lay them out in shard order. *)
Definition call_token (x : list R) : list R :=
  concat (map (fun p => linear (proj m) (proj_p p) (layer_norm (ln_p p) x)) params).

Definition call (x : list (list R)) : list (list R) := map call_token x.

(** Line 110 on the shard whose parameters are [p]:
    [shard_logits = self.proj(x)]. *)
Definition shard_logits (p : ProjParams) (x : list R) : list R :=
  linear (proj m) (proj_p p) x.

(** Lines 112-115. *)
Definition shard_start_index (s : nat) : nat := (s * dim_per_shard m)%nat.

Definition shard_index (s : nat) : list Z :=
  arange_from (shard_start_index s) (dim_per_shard m).

Definition gt_onehot (s : nat) (target : Z) : list R :=
  onehot (shard_index s) target.

(** Line 117: the maximum of all shards' local maxima. *)
Definition global_max (x : list R) : option R :=
  local <- omap (fun p => rmax (shard_logits p x)) params ;;
  pmax local.

Definition shifted (gmax : R) (p : ProjParams) (x : list R) : list R :=
  map (fun v => v - gmax) (shard_logits p x).

(** Line 118. *)
Definition global_sum (gmax : R) (x : list R) : R :=
  psum (map (fun p => rsum (map exp (shifted gmax p x))) params).

Definition logsoftmax (gmax : R) (p : ProjParams) (x : list R) : list R :=
  map (fun v => v - ln (global_sum gmax x)) (shifted gmax p x).

(** Line 120: what shard [s] contributes to the last reduce. *)
Definition local_loss (gmax : R) (s : nat) (p : ProjParams) (x : list R) (target : Z) : R :=
  - rsum (rmul (gt_onehot s target) (logsoftmax gmax p x)).

(** [loss], lines 109-122, for one token as shard [s] returns it. *)
Definition loss_token (s : nat) (x : list R) (target : Z) : option R :=
  _ <- nth_error params s ;;
  gmax <- global_max x ;;
  Some (psum (map (fun sp => local_loss gmax (fst sp) (snd sp) x target)
                  (combine (seq 0 (length params)) params))).

(** [loss] on the rows of [x] and the entries of [targets.reshape(-1, 1)].
    The maximum of line 117 raises on logits of width 0, also when there is
    no row; the product of line 120 broadcasts the rows of [gt_onehot], one
    per target, against the rows of [logsoftmax], one per row of [x]. *)
Definition loss (s : nat) (x : list (list R)) (targets : list Z) : option (list R) :=
  _ <- (if Nat.eqb (output_size (proj m)) 0 then None else Some tt) ;;
  pairs <- broadcast_rows x targets ;;
  omap (fun xt => loss_token s (fst xt) (snd xt)) pairs.

End Call.

(** The reference: the cross-entropy of one device holding the whole row of
    logits, by the numerically stable [log_softmax]. *)
Definition log_softmax (logits : list R) : option (list R) :=
  mx <- rmax logits ;;
  let sh := map (fun v => v - mx) logits in
  Some (map (fun v => v - ln (rsum (map exp sh))) sh).

Definition naive_cross_entropy (logits : list R) (target : Z) : option R :=
  lp <- log_softmax logits ;;
  Some (- rsum (rmul (onehot (arange_from 0 (length logits)) target) lp)).

(** The logits of all shards side by side. *)
Definition all_logits (m : ProjectionShard) (params : list ProjParams) (x : list R) : list R :=
  concat (map (fun p => shard_logits m p x) params).

(** The reference on a batch: the cross-entropy of every row of full logits
    for the target that broadcasting pairs it with. *)
Definition naive_loss (m : ProjectionShard) (params : list ProjParams)
  (x : list (list R)) (targets : list Z) : option (list R) :=
  pairs <- broadcast_rows x targets ;;
  omap (fun xt => naive_cross_entropy (all_logits m params (fst xt)) (snd xt)) pairs.

End Projection.

(* --------------------------------------------------------------------- *)
(** ** [CausalTransformerShard]                                           *)
(* --------------------------------------------------------------------- *)

Module Stack.
Import Kernels.
Local Open Scope R_scope.

Record CausalTransformerShard : Type := {
  heads : nat;
  embed : Embedding.EmbeddingShard;
  transformer_layers : list Layer.TransformerLayerShard;
  proj : Projection.ProjectionShard
}.

(** [__init__], lines 126-140; [shards] is the size of the mesh axis
    ['mp'].  [2. / layer_count] raises for [layer_count = 0]. *)
Definition init (shards dim heads layer_count vocab : nat) : option CausalTransformerShard :=
  e <- Embedding.init vocab dim shards ;;
  _ <- (if Nat.eqb layer_count 0 then None else Some tt) ;;
  ls <- omap (fun _ => Layer.init dim heads shards) (seq 0 layer_count) ;;
  pr <- Projection.init vocab shards ;;
  Some {| heads := heads; embed := e; transformer_layers := ls; proj := pr |}.

(** The parameters of one shard of the model. *)
Record ShardParams : Type := {
  embed_p : LinearParams;
  layers_p : list Layer.LayerParams;
  proj_p : Projection.ProjParams
}.

(** [jnp.triu(m, 1)]: the entries strictly above the diagonal are kept. *)
Definition triu1 (m : list (list R)) : list (list R) :=
  map (fun ir => map (fun jv => if Nat.ltb (fst ir) (fst jv) then snd jv else 0)
                     (combine (seq 0 (length (snd ir))) (snd ir)))
      (combine (seq 0 (length m)) m).

(** Lines 145-147. *)
Definition causal_mask (n : nat) : Layer.mask_t :=
  let mask := repeat (repeat 0 n) n in
  let mask := map (map (fun z => z - 100000000000)) mask in
  triu1 mask.

(** Lines 149-150: the residual loop over the layers. *)
Fixpoint run_layers (layers : list Layer.TransformerLayerShard)
  (params : list (list Layer.LayerParams)) (x : list (list R)) (mask : Layer.mask_t)
  : option (list (list R)) :=
  match layers, params with
  | [], _ => Some x
  | l :: layers', ps :: params' =>
      y <- Layer.call l ps x (Some mask) ;;
      run_layers layers' params' (map (fun xy => radd (fst xy) (snd xy)) (combine x y)) mask
  | _ :: _, [] => None
  end.

(** The parameters of layer [i] on every shard. *)
Definition layer_params (params : list ShardParams) (i : nat) : option (list Layer.LayerParams) :=
  omap (fun sp => nth_error (layers_p sp) i) params.

(** [eval], lines 142-152, as shard [s] returns it. *)
Definition eval (c : CausalTransformerShard) (params : list ShardParams) (s : nat)
  (context target : list Z) : option (list R) :=
  let x := Embedding.call (embed c) (map embed_p params) context in
  let mask := causal_mask (length x) in
  lps <- omap (layer_params params) (seq 0 (length (transformer_layers c))) ;;
  x <- run_layers (transformer_layers c) lps x mask ;;
  Projection.loss (proj c) (map proj_p params) s x target.

(** [train_loss], line 155. *)
Definition train_loss (c : CausalTransformerShard) (params : list ShardParams) (s : nat)
  (ctx tgt : list Z) : option R :=
  losses <- eval c params s ctx tgt ;;
  Some (rsum losses / INR (length losses)).

End Stack.

(* --------------------------------------------------------------------- *)
(** ** The element types of the forward pass                              *)
(* --------------------------------------------------------------------- *)

(** The forward pass once more, on element types alone: what
    [hk.transform(train_loss).init] runs to create the parameters.  A
    module creates a parameter the first time it asks for it, in the element
    type it asks for; [hk.Linear] and [hk.LayerNorm] ask for the element
    type of their input.  The shapes are left out, and nothing here raises
    on a shape. *)
Module Dtypes.
Import Precision.
Local Open Scope string_scope.

(** The element type of the result of an arithmetic operation of [jnp] on
    two arrays. *)
Definition promote (a b : dtype) : dtype :=
  match a, b with
  | float32, _ => float32
  | _, float32 => float32
  | bfloat16, _ => bfloat16
  | _, bfloat16 => bfloat16
  | int32, int32 => int32
  end.

(** A traced computation raises, or gives the element type of its value and
    the parameters created on the way, each with the name and the element
    type it was asked for, in the order of creation. *)
Definition traced : Type := option (dtype * list (string * dtype)).

Definition ret (d : dtype) : traced := Some (d, []).

Definition bind (m : traced) (k : dtype -> traced) : traced :=
  match m with
  | None => None
  | Some (d, created) =>
      match k d with
      | None => None
      | Some (d', created') => Some (d', (created ++ created')%list)
      end
  end.

Notation "x <~ e ;; k" := (bind e (fun x => k))
  (at level 61, e at next level, right associativity).

(** [hk.Linear.__call__]: [w], and [b] with a bias, of the element type of
    the input; the product and the sum keep it. *)
Definition linear (m : Kernels.Linear) (inputs : dtype) : traced :=
  let w := inputs in
  let out := promote inputs w in
  if Kernels.with_bias m then
    let b := inputs in
    Some (promote out b, [("w", w); ("b", b)])
  else Some (out, [("w", w)]).

(** [hk.LayerNorm(-1, True, True).__call__]: [scale] and [offset] of the
    element type of the input. *)
Definition layer_norm (inputs : dtype) : traced :=
  let scale := inputs in
  let offset := inputs in
  Some (promote (promote scale inputs) offset,
        [("scale", scale); ("offset", offset)]).

(** [EmbeddingShard.__call__], lines 29-35: the comparison of line 33 is
    cast to the argument [dtype], whatever the element type of [x]. *)
Definition embedding (e : Embedding.EmbeddingShard) (x dtype_arg : dtype) : traced :=
  proj_out <~ linear (Embedding.proj e) dtype_arg ;;
  ret proj_out.

(** [attention_logits += mask] *)
Definition iadd_mask (attention_logits : dtype) (mask : option dtype) : traced :=
  match mask with
  | None => None
  | Some m => ret (promote attention_logits m)
  end.

(** [TransformerLayerShard.__call__], lines 61-85. *)
Definition layer (l : Layer.TransformerLayerShard) (x : dtype) (mask : option dtype)
  : traced :=
  x <~ layer_norm x ;;
  q <~ linear (Layer.q l) x ;;
  v <~ linear (Layer.v l) x ;;
  k <~ linear (Layer.k l) x ;;
  let attention_logits := promote q k in
  let sqrt_key_size := k in
  let attention_logits := promote attention_logits sqrt_key_size in
  attention_logits <~ (match mask with
                       | None => iadd_mask attention_logits mask
                       | Some _ => ret attention_logits
                       end) ;;
  let attention_weights := attention_logits in
  let attention_vec := promote attention_weights v in
  attn_out <~ linear (Layer.o l) attention_vec ;;
  dense_proj <~ linear (Layer.dense_proj l) x ;;
  dense_out <~ linear (Layer.dense_proj_o l) dense_proj ;;
  ret (promote attn_out dense_out).

(** [ProjectionShard.loss], lines 109-122: [self.ln] is not called and
    creates nothing. *)
Definition loss (m : Projection.ProjectionShard) (x targets dtype_arg : dtype)
  : traced :=
  shard_logits <~ linear (Projection.proj m) x ;;
  let gt_onehot := dtype_arg in
  let shifted := promote shard_logits shard_logits in
  let logsoftmax := promote shifted shifted in
  ret (promote gt_onehot logsoftmax).

(** Lines 149-150. *)
Fixpoint run_layers (layers : list Layer.TransformerLayerShard) (x mask : dtype)
  : traced :=
  match layers with
  | [] => ret x
  | l :: layers' =>
      y <~ layer l x (Some mask) ;;
      run_layers layers' (promote x y) mask
  end.

(** [CausalTransformerShard.eval], lines 142-152: [jnp.zeros] makes the
    mask a [float32] array, and the calls of lines 143 and 152 leave the
    arguments [dtype] at their default [jnp.bfloat16]. *)
Definition eval (c : Stack.CausalTransformerShard) (context target : dtype) : traced :=
  x <~ embedding (Stack.embed c) context bfloat16 ;;
  let mask := float32 in
  x <~ run_layers (Stack.transformer_layers c) x mask ;;
  loss (Stack.proj c) x target bfloat16.

(** [train_loss], line 155: the mean keeps the element type. *)
Definition train_loss (c : Stack.CausalTransformerShard) (ctx tgt : dtype) : traced :=
  losses <~ eval c ctx tgt ;;
  ret losses.

(** A traced computation that does not raise, whose value is [bfloat16] and
    which creates [bfloat16] parameters only. *)
Definition narrow (t : traced) : Prop :=
  exists created,
    t = Some (bfloat16, created) /\
    Forall (fun np => snd np = bfloat16) created.

End Dtypes.

(* --------------------------------------------------------------------- *)
(** ** [CausalTransformer]: the training state and its lifecycle          *)
(* --------------------------------------------------------------------- *)

Module Training.
Import Precision.

(** What the lifecycle takes from [jax], [haiku] and [optax].  The functions
    that [xmap] maps over the mesh are embedded on arrays that carry the
    mapped axes (['shard'], ['batch']) inside their contents, so that the
    mapped function is the function of the source.

    - [int_array n] is [np.array(n)], [array_add a b] is [a + b],
      [array_add_int a n] is [a + n] and [array_div a n] is [a / n] for a
      Python integer [n];
    - [pmean_batch] is [jax.lax.pmean(., "batch")] on a leaf;
    - [apply_update p u] is what [optax.apply_updates] does to a leaf;
    - [param_init_fn] is [hk.transform(train_loss).init];
    - [value_and_grad_train_loss] is
      [jax.value_and_grad(hk.without_apply_rng(hk.transform(train_loss)).apply)]. *)
Class TrainLib {L : ArrayLib} : Type := {
  key : Type;
  batch : Type;
  int_array : Z -> array;
  array_add : array -> array -> array;
  array_add_int : array -> Z -> array;
  array_div : array -> Z -> array;
  pmean_batch : array -> array;
  apply_update : array -> array -> array;
  param_init_fn : key -> batch -> batch -> tree;
  value_and_grad_train_loss : tree -> batch -> batch -> array * tree
}.

Section Lifecycle.
Context {L : ArrayLib} {T : TrainLib}.

(** An [optax.GradientTransformation] with optimizer state [O]. *)
Record GradientTransformation (O : Type) : Type := {
  opt_init : tree -> O;
  opt_update : tree -> O -> tree * O
}.

(** [optax.apply_updates(params, updates)] *)
Definition apply_updates (params updates : tree) : option tree :=
  tree_multimap apply_update params updates.

(** The accelerator-resident state. *)
Record tpu_state_t : Type := {
  params : tree;
  step : array;
  grad : tree
}.

(** The host-resident state. *)
Record cpu_state_t (O : Type) : Type := {
  opt_state : O;
  cpu_params : tree
}.

(** A sample of the loader. *)
Record sample_t : Type := {
  obs : batch;
  target : batch
}.

(** The function [train] of lines 162-176. *)
Definition train_fn (state : tpu_state_t) (ctx tgt : batch)
  : option (array * tpu_state_t) :=
  let vg := value_and_grad_train_loss (to_bf16 (params state)) ctx tgt in
  let value := fst vg in
  let grad' := tree_map pmean_batch (snd vg) in
  acc <- tree_multimap array_add (grad state) grad' ;;
  Some (value, {| params := params state;
                  step := array_add_int (step state) 1;
                  grad := acc |}).

(** The function [init] of lines 178-191. *)
Definition init_fn (k : key) (x : batch) : tpu_state_t :=
  let params := param_init_fn k x x in
  {| params := params;
     step := int_array 0;
     grad := tree_map zeros_like params |}.

(** The function [set_tpu_state] of lines 193-198. *)
Definition set_tpu_state (new_params : tree) (old_state : tpu_state_t) : tpu_state_t :=
  {| params := to_bf16 new_params;
     step := step old_state;
     grad := tree_map zeros_like (grad old_state) |}.

Section Object.
Variable O : Type.

(** The fields of a [CausalTransformer] that the lifecycle reads and
    writes. *)
Record CausalTransformer : Type := {
  optimizer : GradientTransformation O;
  tpu_state : tpu_state_t;
  cpu_state : cpu_state_t O
}.

(** [cpu_init_jit], lines 233-239, closed over the object under
    construction, of which it reads the field [tpu_state] and the
    optimizer. *)
Definition cpu_init_jit (opt : GradientTransformation O) (self_tpu_state : tpu_state_t)
  (tpu_state' : tpu_state_t) : cpu_state_t O :=
  let fp32_params := to_f32 (params self_tpu_state) in
  {| opt_state := opt_init opt fp32_params;
     cpu_params := fp32_params |}.

(** [__init__], lines 159-241: [keys] is [jnp.array(key.take(mp))] and [x]
    the random batch of line 225. *)
Definition construct (opt : GradientTransformation O) (keys : key) (x : batch)
  : CausalTransformer :=
  let tpu := init_fn keys x in
  {| optimizer := opt;
     tpu_state := tpu;
     cpu_state := cpu_init_jit opt tpu tpu |}.

(** The method [train], lines 243-245. *)
Definition train (self : CausalTransformer) (sample : sample_t)
  : option (array * CausalTransformer) :=
  r <- train_fn (tpu_state self) (obs sample) (target sample) ;;
  Some (fst r, {| optimizer := optimizer self;
                  tpu_state := snd r;
                  cpu_state := cpu_state self |}).

(** [cpu_update_jit], lines 248-257, closed over [self]; its parameters
    [cpu_state] and [tpu_state] are primed here, the plain names being the
    fields of [self]. *)
Definition cpu_update_jit (self : CausalTransformer)
  (cpu_state' : cpu_state_t O) (tpu_state' : tpu_state_t) (grad_acc_no : Z)
  : option (cpu_state_t O) :=
  let grad := grad (tpu_state self) in
  let grad := tree_map (fun a => array_div a grad_acc_no) grad in
  let r := opt_update (optimizer self) grad (opt_state cpu_state') in
  let updates := fst r in
  let new_opt_state := snd r in
  new_params <- apply_updates (cpu_params cpu_state') updates ;;
  Some {| opt_state := new_opt_state; cpu_params := new_params |}.

(** The method [update], lines 247-260. *)
Definition update (self : CausalTransformer) (grad_acc_no : Z)
  : option CausalTransformer :=
  new_cpu <- cpu_update_jit self (cpu_state self) (tpu_state self) grad_acc_no ;;
  Some {| optimizer := optimizer self;
          tpu_state := set_tpu_state (cpu_params new_cpu) (tpu_state self);
          cpu_state := new_cpu |}.

(** The states of the lifecycle, each with the host parameter trees there
    have been so far, the latest first. *)
Inductive reachable (opt : GradientTransformation O)
  : CausalTransformer -> list tree -> Prop :=
| reach_init (keys : key) (x : batch) :
    reachable opt (construct opt keys x)
              [cpu_params (cpu_state (construct opt keys x))]
| reach_train self hist sample loss self' :
    reachable opt self hist ->
    train self sample = Some (loss, self') ->
    reachable opt self' hist
| reach_update self hist n self' :
    reachable opt self hist ->
    update self n = Some self' ->
    reachable opt self' (cpu_params (cpu_state self') :: hist).

(** The calls that a driver makes on a constructed object, one after the
    other; a call that raises ends the run. *)
Inductive call : Type :=
| CallTrain (sample : sample_t)
| CallUpdate (grad_acc_no : Z).

Definition run_call (self : CausalTransformer) (c : call) : option CausalTransformer :=
  match c with
  | CallTrain sample => r <- train self sample ;; Some (snd r)
  | CallUpdate n => update self n
  end.

Fixpoint run_calls (self : CausalTransformer) (cs : list call)
  : option CausalTransformer :=
  match cs with
  | [] => Some self
  | c :: cs' => self' <- run_call self c ;; run_calls self' cs'
  end.

End Object.

(** The number of [train] calls among the calls. *)
Fixpoint count_trains (cs : list call) : nat :=
  match cs with
  | [] => 0
  | CallTrain _ :: cs' => S (count_trains cs')
  | CallUpdate _ :: cs' => count_trains cs'
  end.

(** The sum that accumulation is compared with: the accumulator [g] plus,
    sample by sample, the batch mean of the gradient taken at the narrow
    cast of the one parameter tree [p]. *)
Fixpoint accumulate (p g : tree) (samples : list sample_t) : option tree :=
  match samples with
  | [] => Some g
  | s :: rest =>
      g' <- tree_multimap array_add g
              (tree_map pmean_batch
                 (snd (value_and_grad_train_loss (to_bf16 p) (obs s) (target s)))) ;;
      accumulate p g' rest
  end.

End Lifecycle.

(** What the libraries guarantee and the properties of the lifecycle rely
    on. *)

(** A [bfloat16] value is a [float32] value: widening it and narrowing it
    again gives it back. *)
Definition narrow_survives_round_trip {L : ArrayLib} : Prop :=
  forall c : payload bfloat16,
    cast float32 bfloat16 (cast bfloat16 float32 c) = c.

(** The gradient has the structure of the parameters it is taken at. *)
Definition gradient_keeps_structure {L : ArrayLib} (T : TrainLib) : Prop :=
  forall (p : tree) (ctx tgt : batch),
    skel (snd (value_and_grad_train_loss p ctx tgt)) = skel p.

(** Haiku creates the parameters of a module in the element type of the
    module's input; the embedding feeds its projection a [bfloat16] one-hot
    array (lines 29 and 33) and the activations keep that element type, so
    that no parameter is created as [float32]. *)
Definition init_params_not_wide {L : ArrayLib} (T : TrainLib) : Prop :=
  forall (k : key) (x y : batch),
    all_leaves (fun a => dt a <> float32) (param_init_fn k x y).

(** [hk.transform(f).init] runs [f] and returns the parameters that the
    modules of [f] created on the way: every leaf of the initial tree is
    one of the parameters that [train_loss] of the network [c] creates, and
    has the element type it was created with. *)
Definition init_returns_created_params {L : ArrayLib} (T : TrainLib)
  (c : Stack.CausalTransformerShard) : Prop :=
  forall (k : key) (x y : batch),
    exists (ctx tgt out : dtype) (created : list (string * dtype)),
      Dtypes.train_loss c ctx tgt = Some (out, created) /\
      all_leaves (fun a => In (dt a) (map snd created)) (param_init_fn k x y).

(** An optimizer's updates have the structure of the gradient it is
    given. *)
Definition optimizer_keeps_structure {L : ArrayLib} {T : TrainLib} (O : Type)
  (opt : GradientTransformation O) : Prop :=
  forall (g : tree) (s : O), skel (fst (opt_update opt g s)) = skel g.

End Training.

(* --------------------------------------------------------------------- *)
(** ** The driver of [tpuv38_example.py]                                  *)
(* --------------------------------------------------------------------- *)

Module Driver.
Import Training.

Section Example.
Context {L : Precision.ArrayLib} {T : TrainLib}.

(** [get_samples n] is what the [n]-th call of [loader.get_samples()]
    returns. *)
Variable get_samples : nat -> sample_t.

(** Lines 59-66, the body of the loop for the index [i]; the sample is the
    [i + 1]-th after the one of line 48. *)
Definition loop_body (i : nat) : list call :=
  CallTrain (get_samples (S i))
  :: (if Nat.ltb i 10 then [CallUpdate 10] else []).

(** Lines 48-66: the calls on [c], with [it] iterations of the loop. *)
Definition calls (it : nat) : list call :=
  [CallTrain (get_samples 0); CallUpdate 1] ++ flat_map loop_body (seq 0 it).

End Example.

(** For every [update] among the calls, the number of [train] calls since
    the [update] before it (or since the start, [pending] being the number
    already made) and the count that [update] is passed. *)
Fixpoint update_batches {L : Precision.ArrayLib} {T : TrainLib}
  (pending : nat) (cs : list call) : list (nat * Z) :=
  match cs with
  | [] => []
  | CallTrain _ :: cs' => update_batches (S pending) cs'
  | CallUpdate n :: cs' => (pending, n) :: update_batches 0 cs'
  end.

End Driver.

(* --------------------------------------------------------------------- *)
(** ** A small instance of the libraries, to run the lifecycle on         *)
(* --------------------------------------------------------------------- *)

(** Arrays of one integer, which every element type holds exactly: a cast
    changes the element type only.  The model has one weight [w]; the loss
    is [w * ctx - tgt] with gradient [ctx]; the optimizer is plain descent
    and counts its steps. *)
Module Toy.
Import Precision Training.

#[export] Instance arrays : ArrayLib := {|
  payload := fun _ => Z;
  cast := fun _ _ c => c;
  zeros := fun _ _ => 0%Z
|}.

Definition lift2 (f : Z -> Z -> Z) (a b : array) : array :=
  {| dt := dt a; buf := f (buf a) (buf b) |}.

Definition weight (t : tree) : Z :=
  match t with
  | Dict [(_, Leaf a)] => buf a
  | _ => 0%Z
  end.

#[export] Instance lib : TrainLib := {|
  key := Z;
  batch := Z;
  int_array := fun n => {| dt := int32; buf := n |};
  array_add := lift2 Z.add;
  array_add_int := fun a n => {| dt := dt a; buf := (buf a + n)%Z |};
  array_div := fun a n => {| dt := dt a; buf := (buf a / n)%Z |};
  pmean_batch := fun a => a;
  apply_update := lift2 Z.add;
  param_init_fn := fun k _ _ => Dict [("w"%string, Leaf {| dt := bfloat16; buf := k |})];
  value_and_grad_train_loss := fun p ctx tgt =>
    ({| dt := bfloat16; buf := (weight p * ctx - tgt)%Z |},
     tree_map (fun a => {| dt := dt a; buf := ctx |}) p)
|}.

Definition narrow_tree : tree :=
  Dict [("w"%string, Leaf {| dt := bfloat16; buf := 7%Z |})].

Definition wide_tree : tree :=
  Dict [("w"%string, Leaf {| dt := float32; buf := 7%Z |})].

(** A tree that holds a token array beside a weight. *)
Definition mixed_tree : tree :=
  Dict [("ids"%string, Leaf {| dt := int32; buf := 3%Z |});
        ("w"%string, Leaf {| dt := float32; buf := 7%Z |})].

Definition int_tree : tree :=
  Dict [("ids"%string, Leaf {| dt := int32; buf := 3%Z |})].

Definition descent : GradientTransformation nat := {|
  opt_init := fun _ => 0%nat;
  opt_update := fun g s => (tree_map (fun a => {| dt := dt a; buf := (- buf a)%Z |}) g, S s)
|}.

Definition start : CausalTransformer nat := construct descent 7%Z 1%Z.

Definition sample : sample_t := {| obs := 2%Z; target := 5%Z |}.

(** The object after one [train] and after the [update] that follows. *)
Definition trained : CausalTransformer nat :=
  match train start sample with
  | Some r => snd r
  | None => start
  end.

Definition updated : CausalTransformer nat :=
  match update trained 1 with
  | Some self' => self'
  | None => trained
  end.

End Toy.

(* --------------------------------------------------------------------- *)
(** ** A block of width 1, to run the layer on                            *)
(* --------------------------------------------------------------------- *)

Module Tiny.
Import Kernels.
Local Open Scope R_scope.

(** [TransformerLayerShard(1, 1, 1)] *)
Definition layer : Layer.TransformerLayerShard :=
  {| Layer.dim := 1;
     Layer.dim_per_head := 1;
     Layer.heads_per_shard := 1;
     Layer.dim_per_shard := 1;
     Layer.q := {| output_size := 1; with_bias := false |};
     Layer.v := {| output_size := 1; with_bias := false |};
     Layer.k := {| output_size := 1; with_bias := false |};
     Layer.o := {| output_size := 1; with_bias := false |};
     Layer.dense_proj := {| output_size := 4; with_bias := true |};
     Layer.dense_proj_o := {| output_size := 1; with_bias := true |} |}.

Definition params : Layer.LayerParams :=
  {| Layer.ln_p := {| scale := [1]; offset := [0] |};
     Layer.q_p := {| w := [[1]]; b := [] |};
     Layer.v_p := {| w := [[1]]; b := [] |};
     Layer.k_p := {| w := [[1]]; b := [] |};
     Layer.o_p := {| w := [[1]]; b := [] |};
     Layer.dense_proj_p := {| w := [[1; 0; 0; 0]]; b := [0; 0; 0; 0] |};
     Layer.dense_proj_o_p := {| w := [[1]; [0]; [0]; [0]]; b := [0] |} |}.

(** Two tokens. *)
Definition x : list (list R) := [[3]; [5]].

End Tiny.

(* --------------------------------------------------------------------- *)
(** ** A head of two shards, to run the loss on                           *)
(* --------------------------------------------------------------------- *)

Module TinyHead.
Import Kernels.
Local Open Scope R_scope.

(** [ProjectionShard(2, 2)]: a vocabulary of two tokens, one per shard. *)
Definition head : Projection.ProjectionShard :=
  {| Projection.dim := 2;
     Projection.dim_per_shard := 1;
     Projection.shards := 2;
     Projection.proj := {| output_size := 1; with_bias := true |} |}.

Definition norm : LayerNormParams := {| scale := [1]; offset := [0] |}.

Definition params : list Projection.ProjParams :=
  [ {| Projection.ln_p := norm; Projection.proj_p := {| w := [[1]]; b := [0] |} |};
    {| Projection.ln_p := norm; Projection.proj_p := {| w := [[-1]]; b := [0] |} |} ].

(** The activation of one token, of width 1. *)
Definition x : list R := [5].

End TinyHead.

(* --------------------------------------------------------------------- *)
(** ** A model of one shard and one layer, to run the forward pass on     *)
(* --------------------------------------------------------------------- *)

Module TinyModel.
Import Kernels.
Local Open Scope R_scope.

(** [CausalTransformerShard(1, 1, 1, 2)] on a mesh with one shard: hidden
    width 1, one head, one layer, a vocabulary of two tokens. *)
Definition model : Stack.CausalTransformerShard :=
  {| Stack.heads := 1;
     Stack.embed :=
       {| Embedding.in_dim := 2; Embedding.out_dim := 1;
          Embedding.dim_per_shard := 2; Embedding.shards := 1;
          Embedding.proj := {| output_size := 1; with_bias := true |} |};
     Stack.transformer_layers := [Tiny.layer];
     Stack.proj :=
       {| Projection.dim := 2; Projection.dim_per_shard := 2;
          Projection.shards := 1;
          Projection.proj := {| output_size := 2; with_bias := true |} |} |}.

Definition params : list Stack.ShardParams :=
  [ {| Stack.embed_p := {| w := [[1]; [2]]; b := [0] |};
       Stack.layers_p := [Tiny.params];
       Stack.proj_p :=
         {| Projection.ln_p := {| scale := [1]; offset := [0] |};
            Projection.proj_p := {| w := [[1; -1]]; b := [0; 0] |} |} |} ].

End TinyModel.

(* ===================================================================== *)
(** * Part II: the properties                                             *)
(* ===================================================================== *)

(* --------------------------------------------------------------------- *)
(** ** The precision casters                                              *)
(* --------------------------------------------------------------------- *)

Module PrecisionFacts.
Import Precision.

Section Facts.
Context {L : ArrayLib}.

(** Induction over a tree whose dictionaries hold trees. *)
Lemma tree_rect_items (P : tree -> Prop)
  (HL : forall a, P (Leaf a))
  (HD : forall items, Forall (fun kv => P (snd kv)) items -> P (Dict items)) :
  forall t, P t.
Proof.
  fix IH 1.
  intros [a | items].
  - apply HL.
  - apply HD. induction items as [| kv items IHitems].
    + constructor.
    + constructor; [apply IH | exact IHitems].
Qed.

Lemma all_leaves_Dict (P : array -> Prop) (items : list (string * tree)) :
  all_leaves P (Dict items) <-> Forall (fun kv => all_leaves P (snd kv)) items.
Proof.
  induction items as [| kv items IH].
  - simpl. split; auto.
  - change (all_leaves P (Dict (kv :: items)))
      with (all_leaves P (snd kv) /\ all_leaves P (Dict items)).
    rewrite IH. split.
    + intros [H1 H2]. constructor; assumption.
    + intros H. inversion H; subst. split; assumption.
Qed.

(** A map that fixes every leaf satisfying [P] fixes a tree of such leaves. *)
Lemma tree_map_fixes (P : array -> Prop) (f : array -> array) :
  (forall a, P a -> f a = a) ->
  forall t, all_leaves P t -> tree_map f t = t.
Proof.
  intros Hf. induction t as [a | items IH] using tree_rect_items; intros Hall.
  - simpl in *. now rewrite Hf.
  - rewrite all_leaves_Dict in Hall. simpl. f_equal.
    induction items as [| [k v] items IHitems]; [reflexivity |].
    inversion IH; subst. inversion Hall; subst. simpl in *.
    rewrite H1 by assumption. f_equal. now apply IHitems.
Qed.

Lemma tree_map_compose (f g : array -> array) (t : tree) :
  tree_map f (tree_map g t) = tree_map (fun a => f (g a)) t.
Proof.
  induction t as [a | items IH] using tree_rect_items; simpl.
  - reflexivity.
  - f_equal. rewrite map_map. simpl.
    induction IH as [| [k v] items Hv _ IHitems]; [reflexivity |].
    simpl in *. now rewrite Hv, IHitems.
Qed.

(** After [to_bf16] no leaf is wide. *)
Lemma to_bf16_no_wide (t : tree) :
  all_leaves (fun a => dt a <> float32) (to_bf16 t).
Proof.
  unfold to_bf16.
  induction t as [a | items IH] using tree_rect_items.
  - simpl. destruct (dtype_eqb (dt a) float32) eqn:E; simpl.
    + discriminate.
    + intros Heq. rewrite Heq in E. discriminate.
  - simpl. apply all_leaves_Dict. rewrite Forall_map.
    induction IH; constructor; simpl; auto.
Qed.

(** C9.  The casters pass through the leaves that are already in the target
    format: [to_bf16] is the identity on a tree of narrow ([bfloat16])
    leaves and [to_f32] on a tree of wide ([float32]) leaves; and casting
    to narrow precision twice is casting once, for every tree. *)
Theorem casts_pass_through_and_to_bf16_idempotent (t : tree) :
  (all_leaves (fun a => dt a = bfloat16) t -> to_bf16 t = t) /\
  (all_leaves (fun a => dt a = float32) t -> to_f32 t = t) /\
  to_bf16 (to_bf16 t) = to_bf16 t.
Proof.
  split; [| split].
  - apply tree_map_fixes. intros a Ha. now rewrite Ha.
  - apply tree_map_fixes. intros a Ha. now rewrite Ha.
  - apply tree_map_fixes with (P := fun a => dt a <> float32).
    + intros a Ha. destruct (dt a); try reflexivity. now elim Ha.
    + apply to_bf16_no_wide.
Qed.

End Facts.

Lemma casts_pass_through_witness :
  let narrow := Toy.narrow_tree in
  let wide := Toy.wide_tree in
  (all_leaves (fun a => dt a = bfloat16) narrow /\ to_bf16 narrow = narrow) /\
  (all_leaves (fun a => dt a = float32) wide /\ to_f32 wide = wide) /\
  to_bf16 (to_bf16 wide) = to_bf16 wide.
Proof.
  intros narrow wide.
  assert (Hn : all_leaves (fun a => dt a = bfloat16) narrow)
    by (split; [reflexivity | exact I]).
  assert (Hw : all_leaves (fun a => dt a = float32) wide)
    by (split; [reflexivity | exact I]).
  split; [split; [exact Hn |] | split; [split; [exact Hw |] |]].
  - apply (proj1 (casts_pass_through_and_to_bf16_idempotent (L := Toy.arrays) narrow) Hn).
  - apply (proj1 (proj2 (casts_pass_through_and_to_bf16_idempotent (L := Toy.arrays) wide)) Hw).
  - apply (proj2 (proj2 (casts_pass_through_and_to_bf16_idempotent (L := Toy.arrays) wide))).
Defined.

End PrecisionFacts.

(* --------------------------------------------------------------------- *)
(** ** The numeric kernels                                                *)
(* --------------------------------------------------------------------- *)

Unset Implicit Arguments.

Module KernelFacts.
Import Kernels.
Local Open Scope R_scope.

Lemma omap_cons {A B : Type} (f : A -> option B) (a : A) (l : list A) :
  omap f (a :: l) = obind (f a) (fun b => obind (omap f l) (fun bs => Some (b :: bs))).
Proof. reflexivity. Qed.

Lemma rsum_cons (x : R) (l : list R) : rsum (x :: l) = x + rsum l.
Proof. reflexivity. Qed.

Lemma rsum_app (a b : list R) : rsum (a ++ b) = rsum a + rsum b.
Proof.
  induction a as [| x a IH]; simpl.
  - lra.
  - rewrite IH. lra.
Qed.

Lemma rsum_concat (ls : list (list R)) : rsum (concat ls) = rsum (map rsum ls).
Proof.
  induction ls as [| l ls IH]; simpl.
  - reflexivity.
  - now rewrite rsum_app, IH.
Qed.

Lemma rsum_map_add {A : Type} (f g : A -> R) (l : list A) :
  rsum (map (fun a => f a + g a) l) = rsum (map f l) + rsum (map g l).
Proof.
  induction l as [| a l IH]; simpl.
  - lra.
  - rewrite IH. lra.
Qed.

Lemma nth_nil_R (j : nat) : nth j (@nil R) 0 = 0.
Proof. now destruct j. Qed.

Lemma nth_column (j pos : nat) (w : list (list R)) :
  nth pos (column j w) 0 = nth j (nth pos w []) 0.
Proof.
  unfold column. revert pos. induction w as [| row w IHw]; intros pos.
  - destruct pos, j; reflexivity.
  - destruct pos; simpl; [reflexivity | apply IHw].
Qed.

Lemma dot_onehot_seq (tok : Z) (start : nat) :
  forall (n : nat) (col : list R) (a : nat),
    dot (onehot (map (fun i => Z.of_nat i + Z.of_nat start)%Z (seq a n)) tok) col
    = if in_range (a + start) n tok
      then nth (Z.to_nat tok - (a + start)) col 0
      else 0.
Proof.
  unfold dot, rmul, onehot, in_range.
  induction n as [| n IH]; intros col a.
  - simpl. replace (a + start + 0)%nat with (a + start)%nat by lia.
    destruct (Z.leb_spec (Z.of_nat (a + start)) tok), (Z.ltb_spec tok (Z.of_nat (a + start)));
      simpl; try reflexivity; lia.
  - destruct col as [| c col].
    + rewrite nth_nil_R. destruct (_ && _); now rewrite combine_nil.
    + cbn [seq map combine rsum fold_right fst snd].
      specialize (IH col (S a)).
      unfold rsum in IH. rewrite IH. clear IH.
      replace (S a + start + n)%nat with (a + start + S n)%nat by lia.
      destruct (Z.eqb_spec (Z.of_nat a + Z.of_nat start) tok) as [E | E];
        destruct (Z.leb_spec (Z.of_nat (S a + start)) tok) as [Hle | Hlt];
        destruct (Z.leb_spec (Z.of_nat (a + start)) tok) as [Hle' | Hlt'];
        try lia; cbn [andb];
        try destruct (Z.ltb_spec tok (Z.of_nat (a + start + S n))) as [Hup | Hup];
        try lia; try lra.
      * replace (Z.to_nat tok - (a + start))%nat with 0%nat by lia.
        cbn [nth]. lra.
      * replace (Z.to_nat tok - (a + start))%nat
          with (S (Z.to_nat tok - (S a + start)))%nat by lia.
        cbn [nth]. lra.
Qed.

(** A one-hot row selects a row of the matrix it multiplies. *)
Lemma dot_onehot_column (w : list (list R)) (tok : Z) (start n j : nat) :
  dot (onehot (arange_from start n) tok) (column j w)
  = if in_range start n tok
    then nth j (nth (Z.to_nat tok - start) w []) 0
    else 0.
Proof.
  unfold arange_from. rewrite (dot_onehot_seq tok start n (column j w) 0).
  simpl. now rewrite nth_column.
Qed.

(** The mean of rows of one width, coordinate by coordinate. *)
Lemma pmean_row_width (vals : list (list R)) (n : nat) :
  vals <> [] ->
  (forall v, In v vals -> length v = n) ->
  pmean_row vals = map (fun j => pmean (column j vals)) (seq 0 n).
Proof.
  intros Hne Hlen. destruct vals as [| v0 vals']; [congruence |].
  unfold pmean_row. rewrite (Hlen v0) by now left. reflexivity.
Qed.

End KernelFacts.

(* --------------------------------------------------------------------- *)
(** ** The sharded embedding                                              *)
(* --------------------------------------------------------------------- *)

Module EmbeddingFacts.
Import Kernels KernelFacts Embedding.
Local Open Scope R_scope.

Lemma in_range_true (start n : nat) (tok : Z) :
  in_range start n tok = true <->
  (Z.of_nat start <= tok < Z.of_nat (start + n))%Z.
Proof.
  unfold in_range. rewrite andb_true_iff, Z.leb_le, Z.ltb_lt. tauto.
Qed.

Lemma in_range_false (start n : nat) (tok : Z) :
  in_range start n tok = false <->
  (tok < Z.of_nat start \/ Z.of_nat (start + n) <= tok)%Z.
Proof.
  unfold in_range. rewrite andb_false_iff, Z.leb_gt, Z.ltb_ge. tauto.
Qed.

(** Decide every range test in the goal and split on the outcome. *)
Ltac range_cases :=
  repeat match goal with
  | |- context [in_range ?s ?n ?t] =>
      let E := fresh "E" in
      destruct (in_range s n t) eqn:E;
      [apply in_range_true in E | apply in_range_false in E]
  end.

(** What [init] fixes. *)
Lemma embedding_init_fields (vocab width S : nat) (e : EmbeddingShard) :
  init vocab width S = Some e ->
  S <> 0%nat /\ vocab = (S * dim_per_shard e)%nat /\
  out_dim e = width /\ shards e = S /\
  proj e = {| output_size := width; with_bias := true |}.
Proof.
  unfold init. destruct (Nat.eqb_spec S 0) as [| HS]; [discriminate |].
  destruct (Nat.eqb_spec (vocab mod S) 0) as [Hmod |]; [| discriminate].
  intros [= <-]. simpl. repeat split; try assumption.
  apply Nat.Div0.div_exact in Hmod. exact Hmod.
Qed.

(** The partial activation of a shard: the owned row of its block if the
    token is in its range, and its bias in either case. *)
Lemma proj_out_row_plus_bias (vocab width S : nat) (e : EmbeddingShard)
  (s : nat) (p : LinearParams) (tok : Z) :
  init vocab width S = Some e ->
  proj_out e s p tok
  = map (fun j =>
           (if in_range (shard_start_index e s) (dim_per_shard e) tok
            then nth j (nth (Z.to_nat tok - shard_start_index e s) (w p) []) 0
            else 0) + nth j (b p) 0)
        (seq 0 width).
Proof.
  intros Hinit. destruct (embedding_init_fields _ _ _ _ Hinit) as (_ & _ & _ & _ & Hproj).
  unfold proj_out, linear, shard_index. rewrite Hproj. simpl.
  apply map_ext. intros j. now rewrite dot_onehot_column.
Qed.

Lemma map_snd_combine_seq {A B : Type} (g : A -> B) (l : list A) (a : nat) :
  map (fun sp : nat * A => g (snd sp)) (combine (seq a (length l)) l) = map g l.
Proof.
  revert a. induction l as [| x l IH]; intros a; simpl.
  - reflexivity.
  - now rewrite IH.
Qed.

(** Summed over the shards, the owned rows make up the row of the whole
    table: exactly one shard owns the token. *)
Lemma rsum_owned_rows (dps : nat) (tok : Z) (j : nat) :
  forall (params : list LinearParams) (a : nat),
    Forall (fun p => length (w p) = dps) params ->
    rsum (map (fun sp : nat * LinearParams =>
                 if in_range (fst sp * dps) dps tok
                 then nth j (nth (Z.to_nat tok - fst sp * dps) (w (snd sp)) []) 0
                 else 0)
              (combine (seq a (length params)) params))
    = if in_range (a * dps) (length params * dps) tok
      then nth j (nth (Z.to_nat tok - a * dps) (full_table params) []) 0
      else 0.
Proof.
  unfold full_table.
  induction params as [| p params IH]; intros a Hrows.
  - simpl. range_cases; [lia | reflexivity].
  - inversion Hrows as [| ? ? Hp Hrest]; subst.
    cbn [length seq combine map rsum fold_right fst snd concat].
    specialize (IH (S a) Hrest). unfold rsum in IH. rewrite IH.
    replace (S a * length (w p))%nat with (a * length (w p) + length (w p))%nat by lia.
    replace (S (length params) * length (w p))%nat
      with (length (w p) + length params * length (w p))%nat by lia.
    remember (a * length (w p))%nat as start.
    remember (length params * length (w p))%nat as rest.
    range_cases; try lia; try lra.
    + rewrite app_nth1 by lia. lra.
    + rewrite app_nth2 by lia.
      replace (Z.to_nat tok - start - length (w p))%nat
        with (Z.to_nat tok - (start + length (w p)))%nat by lia.
      lra.
Qed.

Lemma nth_map_seq (f : nat -> R) (n j : nat) :
  (j < n)%nat -> nth j (map f (seq 0 n)) 0 = f j.
Proof.
  intros Hj. rewrite (nth_indep _ 0 (f 0%nat)) by now rewrite length_map, length_seq.
  rewrite map_nth, seq_nth by assumption. reflexivity.
Qed.

(** The embedding of a token, coordinate by coordinate. *)
Lemma call_token_mean (vocab width S : nat) (e : EmbeddingShard)
  (params : list LinearParams) (tok : Z) :
  init vocab width S = Some e ->
  length params = S ->
  Forall (fun p => length (w p) = dim_per_shard e) params ->
  (0 <= tok < Z.of_nat vocab)%Z ->
  call_token e params tok
  = map (fun j =>
           (nth j (nth (Z.to_nat tok) (full_table params) []) 0
            + rsum (map (fun p => nth j (b p) 0) params)) / INR S)
        (seq 0 width).
Proof.
  intros Hinit Hlen Hrows Htok.
  destruct (embedding_init_fields _ _ _ _ Hinit) as (HS & Hvocab & _ & _ & _).
  unfold call_token.
  assert (Hvals : forall l, map (fun sp => proj_out e (fst sp) (snd sp) tok) l
            = map (fun sp : nat * LinearParams =>
                map (fun j =>
                  (if in_range (fst sp * dim_per_shard e) (dim_per_shard e) tok
                   then nth j (nth (Z.to_nat tok - fst sp * dim_per_shard e)
                                   (w (snd sp)) []) 0
                   else 0) + nth j (b (snd sp)) 0) (seq 0 width)) l).
  { intros l. apply map_ext. intros sp.
    now rewrite (@proj_out_row_plus_bias vocab width S e (fst sp) (snd sp) tok Hinit). }
  rewrite Hvals. clear Hvals.
  set (vals := map _ (combine (seq 0 (length params)) params)).
  assert (Hvlen : length vals = S).
  { unfold vals. now rewrite length_map, length_combine, length_seq, Nat.min_id. }
  rewrite (pmean_row_width vals width).
  2: { intros ->. simpl in Hvlen. congruence. }
  2: { intros v0 Hin. unfold vals in Hin. apply in_map_iff in Hin.
       destruct Hin as (sp & <- & _). now rewrite length_map, length_seq. }
  apply map_ext_in. intros j Hj. apply in_seq in Hj.
  unfold pmean, column. rewrite length_map, Hvlen. f_equal.
  unfold vals. rewrite map_map.
  erewrite map_ext;
    [| intros sp; rewrite nth_map_seq by lia; cbv beta; reflexivity].
  rewrite rsum_map_add. f_equal.
  - rewrite (rsum_owned_rows _ tok j params 0 Hrows).
    simpl. rewrite Nat.sub_0_r. rewrite Hlen. range_cases; [reflexivity | lia].
  - now rewrite (map_snd_combine_seq (fun p => nth j (b p) 0) params 0).
Qed.

(** C3, as the code has it.  For a token of the vocabulary, the partial
    activation of a shard whose range does not hold the token is the bias
    of that shard's projection; the mean over the shards is, coordinate by
    coordinate, the row of the whole table plus the sum of the shards'
    biases, divided by the number of shards; with one shard it is the row
    of the table plus the bias. *)
Theorem embedding_is_mean_of_row_and_biases (vocab width S : nat)
  (e : EmbeddingShard) (params : list LinearParams) (tok : Z) :
  init vocab width S = Some e ->
  length params = S ->
  Forall (fun p => length (w p) = dim_per_shard e) params ->
  (0 <= tok < Z.of_nat vocab)%Z ->
  (forall s p,
     nth_error params s = Some p ->
     in_range (shard_start_index e s) (dim_per_shard e) tok = false ->
     proj_out e s p tok = map (fun j => nth j (b p) 0) (seq 0 width)) /\
  call_token e params tok
  = map (fun j =>
           (nth j (table_lookup (full_table params) width tok) 0
            + rsum (map (fun p => nth j (b p) 0) params)) / INR S)
        (seq 0 width) /\
  (forall p, params = [p] ->
     call_token e params tok
     = map (fun j => nth j (table_lookup (full_table params) width tok) 0 + nth j (b p) 0)
           (seq 0 width)).
Proof.
  intros Hinit Hlen Hrows Htok.
  assert (Hmean := call_token_mean _ _ _ _ _ _ Hinit Hlen Hrows Htok).
  assert (Hlookup : forall j, In j (seq 0 width) ->
            nth j (table_lookup (full_table params) width tok) 0
            = nth j (nth (Z.to_nat tok) (full_table params) []) 0).
  { intros j Hj. apply in_seq in Hj. unfold table_lookup.
    apply nth_map_seq. lia. }
  split; [| split].
  - intros s p _ Hout.
    rewrite (proj_out_row_plus_bias _ _ _ _ s p tok Hinit), Hout.
    apply map_ext. intros j. lra.
  - rewrite Hmean. apply map_ext_in. intros j Hj. now rewrite Hlookup.
  - intros p ->. rewrite Hmean. simpl in Hlen. subst S.
    apply map_ext_in. intros j Hj. rewrite Hlookup by assumption.
    simpl. field.
Qed.

(** Two shards of one row each and a table of width 1. *)
Lemma embedding_is_mean_of_row_and_biases_witness :
  let e := {| in_dim := 2; out_dim := 1; dim_per_shard := 1; shards := 2;
              proj := {| output_size := 1; with_bias := true |} |} in
  let params := [ {| w := [[2]]; b := [1] |}; {| w := [[4]]; b := [1] |} ] in
  init 2 1 2 = Some e /\
  call_token e params 0
  = map (fun j =>
           (nth j (table_lookup (full_table params) 1 0) 0
            + rsum (map (fun p => nth j (b p) 0) params)) / INR 2)
        (seq 0 1).
Proof.
  intros e params. split; [reflexivity |].
  refine (proj1 (proj2 (embedding_is_mean_of_row_and_biases 2 1 2 e params 0%Z
                          eq_refl eq_refl _ _))).
  - repeat constructor.
  - simpl. lia.
Defined.

(** C3 fails as stated.  With a bias of 1 the partial activation of shard
    1 for token 0, which shard 1 does not own, is not zero; with no bias at
    all the mean over two shards is half the row of the table; and with one
    shard the embedding is the row plus the bias. *)
Lemma embedding_is_not_the_table_lookup :
  let e := {| in_dim := 2; out_dim := 1; dim_per_shard := 1; shards := 2;
              proj := {| output_size := 1; with_bias := true |} |} in
  let e1 := {| in_dim := 2; out_dim := 1; dim_per_shard := 2; shards := 1;
               proj := {| output_size := 1; with_bias := true |} |} in
  let plain := [ {| w := [[2]]; b := [0] |}; {| w := [[4]]; b := [0] |} ] in
  let single := [ {| w := [[2]; [4]]; b := [1] |} ] in
  (init 2 1 2 = Some e /\
   in_range (shard_start_index e 1) (dim_per_shard e) 0 = false /\
   proj_out e 1 {| w := [[4]]; b := [1] |} 0 = [1] /\
   proj_out e 1 {| w := [[4]]; b := [1] |} 0 <> [0]) /\
  (call_token e plain 0 = [1] /\
   table_lookup (full_table plain) 1 0 = [2] /\
   call_token e plain 0 <> table_lookup (full_table plain) 1 0) /\
  (init 2 1 1 = Some e1 /\
   call_token e1 single 0 = [3] /\
   table_lookup (full_table single) 1 0 = [2] /\
   call_token e1 single 0 <> table_lookup (full_table single) 1 0).
Proof.
  intros e e1 plain single.
  assert (H1 : proj_out e 1 {| w := [[4]]; b := [1] |} 0 = [1]).
  { rewrite (proj_out_row_plus_bias 2 1 2 e _ _ _ eq_refl). simpl.
    f_equal. lra. }
  assert (H2 : call_token e plain 0 = [1]).
  { rewrite (call_token_mean 2 1 2 e plain 0%Z eq_refl eq_refl).
    - simpl. f_equal. lra.
    - repeat constructor.
    - simpl. lia. }
  assert (H3 : call_token e1 single 0 = [3]).
  { rewrite (call_token_mean 2 1 1 e1 single 0%Z eq_refl eq_refl).
    - simpl. f_equal. lra.
    - repeat constructor.
    - simpl. lia. }
  assert (H4 : table_lookup (full_table plain) 1 0 = [2]) by reflexivity.
  assert (H5 : table_lookup (full_table single) 1 0 = [2]) by reflexivity.
  repeat split; try assumption; try reflexivity.
  - rewrite H1. intros [= H]. lra.
  - rewrite H2, H4. intros [= H]. lra.
  - rewrite H3, H5. intros [= H]. lra.
Qed.

End EmbeddingFacts.

(* --------------------------------------------------------------------- *)
(** ** The transformer block                                              *)
(* --------------------------------------------------------------------- *)

Module LayerFacts.
Import Kernels KernelFacts Layer.
Local Open Scope R_scope.

(** A supplied mask never reaches the logits: the guarded addition runs
    only for [mask = None], where it raises. *)
Lemma masked_logits_supplied (l : TransformerLayerShard) (p : LayerParams)
  (xn : list (list R)) (m : mask_t) :
  masked_logits l p xn (Some m) = Some (attention_logits l p xn).
Proof. reflexivity. Qed.

Lemma masked_logits_missing (l : TransformerLayerShard) (p : LayerParams)
  (xn : list (list R)) :
  masked_logits l p xn None = None.
Proof. reflexivity. Qed.

(** The weights are those of the unmasked logits, whatever the mask. *)
Lemma attention_weights_unmasked (l : TransformerLayerShard) (p : LayerParams)
  (xn : list (list R)) (m : mask_t) :
  attention_weights l p xn (Some m)
  = if Nat.eqb (length xn) 0 then None
    else omap (fun head => omap softmax head) (attention_logits l p xn).
Proof. reflexivity. Qed.

Lemma one_plus_tanh_pos (y : R) : 0 < 1 + tanh y.
Proof.
  unfold tanh, sinh, cosh.
  assert (Ha := exp_pos y). assert (Hb := exp_pos (- y)).
  replace (1 + (exp y - exp (- y)) / 2 / ((exp y + exp (- y)) / 2))
    with (2 * exp y / (exp y + exp (- y))) by (field; lra).
  apply Rdiv_lt_0_compat; lra.
Qed.

Lemma gelu_0 : gelu 0 = 0.
Proof. unfold gelu. unfold Rdiv. ring. Qed.

Lemma gelu_pos (y : R) : 0 < y -> 0 < gelu y.
Proof.
  intros Hy. unfold gelu. apply Rmult_lt_0_compat; [lra |].
  apply one_plus_tanh_pos.
Qed.

(** A row of width 1 is normalized to the offset. *)
Lemma layer_norm_width_1 (p : LayerNormParams) (v : R) :
  layer_norm p [v] = [nth 0 (offset p) 0].
Proof.
  unfold layer_norm, row_mean. simpl. f_equal.
  replace (v - (v + 0) / 1) with 0 by (field).
  unfold Rdiv. ring.
Qed.

Lemma tiny_normed : normed Tiny.params Tiny.x = [[0]; [0]].
Proof.
  unfold normed, Tiny.x. simpl map. now rewrite !layer_norm_width_1.
Qed.

Lemma tiny_logits :
  attention_logits Tiny.layer Tiny.params [[0]; [0]] = [[[0; 0]; [0; 0]]].
Proof.
  unfold attention_logits, q_heads, k_heads, split_heads, linear, dot, rmul, column.
  simpl. rewrite sqrt_1.
  replace (((0 * 1 + 0 + 0) * (0 * 1 + 0 + 0) + 0) / 1) with 0 by field.
  reflexivity.
Qed.

Lemma softmax_0_0 : softmax [0; 0] = Some [1 / 2; 1 / 2].
Proof.
  unfold softmax. simpl. rewrite Rmax_left by lra.
  replace (0 - 0) with 0 by lra. rewrite exp_0.
  do 3 f_equal; field.
Qed.

(** Clear the zeros and ones that evaluating a product of concrete
    matrices leaves behind. *)
Ltac rclean :=
  repeat (rewrite Rmult_0_l || rewrite Rmult_0_r || rewrite Rplus_0_l
          || rewrite Rplus_0_r || rewrite Rmult_1_l || rewrite Rmult_1_r
          || rewrite gelu_0).

Lemma causal_mask_2 :
  Stack.causal_mask 2 = [[0; - 100000000000]; [0; 0]].
Proof.
  unfold Stack.causal_mask, Stack.triu1. simpl.
  repeat f_equal; lra.
Qed.

Lemma tiny_weights (m : mask_t) :
  attention_weights Tiny.layer Tiny.params [[0]; [0]] (Some m)
  = Some [[[1 / 2; 1 / 2]; [1 / 2; 1 / 2]]].
Proof.
  rewrite attention_weights_unmasked, tiny_logits.
  cbn [length Nat.eqb omap]. rewrite softmax_0_0. reflexivity.
Qed.

(** The whole block, and the residual loop of [eval] over the blocks, give
    the same result for any two masks. *)
Lemma call_ignores_mask (l : TransformerLayerShard) (params : list LayerParams)
  (x : list (list R)) (m m' : mask_t) :
  call l params x (Some m) = call l params x (Some m').
Proof. reflexivity. Qed.

Lemma run_layers_ignores_mask (layers : list TransformerLayerShard) :
  forall (params : list (list LayerParams)) (x : list (list R)) (m m' : mask_t),
    Stack.run_layers layers params x m = Stack.run_layers layers params x m'.
Proof.
  induction layers as [| l layers IH]; intros params x m m'; [reflexivity |].
  destruct params as [| ps params]; [reflexivity |].
  cbn [Stack.run_layers]. rewrite (call_ignores_mask l ps x m m').
  destruct (call l ps x (Some m')) as [y |]; [| reflexivity].
  cbn [obind]. apply IH.
Qed.

(** C1, on the code.  The mask that [eval] builds for two tokens forbids
    position 0 to attend to position 1, and the block is given it; the
    weights are still those of the unmasked logits, position 0 attending
    to position 1 with weight 1/2.  The weights of any block are the same
    for any two supplied masks, and so is what the loop of [eval] over the
    blocks computes. *)
Theorem supplied_causal_mask_is_ignored :
  Stack.causal_mask 2 = [[0; - 100000000000]; [0; 0]] /\
  attention_weights Tiny.layer Tiny.params (normed Tiny.params Tiny.x)
                    (Some (Stack.causal_mask 2))
  = Some [[[1 / 2; 1 / 2]; [1 / 2; 1 / 2]]] /\
  (forall l p xn m m',
     attention_weights l p xn (Some m) = attention_weights l p xn (Some m')) /\
  (forall layers params x m m',
     Stack.run_layers layers params x m = Stack.run_layers layers params x m').
Proof.
  split; [exact causal_mask_2 |]. split; [| split].
  - rewrite tiny_normed. apply tiny_weights.
  - intros l p xn m m'. now rewrite !attention_weights_unmasked.
  - intros layers. apply run_layers_ignores_mask.
Qed.

Lemma tiny_attention_vec :
  attention_vec Tiny.layer Tiny.params [[[1 / 2; 1 / 2]; [1 / 2; 1 / 2]]] [[0]; [0]]
  = [[0]; [0]].
Proof.
  unfold attention_vec, v_heads, split_heads, linear, dot, rmul, column.
  simpl. rclean. reflexivity.
Qed.

Lemma tiny_dense_out (r : R) :
  dense_out Tiny.layer Tiny.params [r] = [gelu r].
Proof.
  unfold dense_out, linear, dot, rmul, column. simpl. rclean. reflexivity.
Qed.

Lemma tiny_attn_out :
  map (linear (o Tiny.layer) (o_p Tiny.params)) [[0]; [0]] = [[0]; [0]].
Proof.
  unfold linear, dot, rmul, column. simpl. rclean. reflexivity.
Qed.

Lemma tiny_local_out (m : mask_t) :
  local_out Tiny.layer Tiny.params Tiny.x (Some m) = Some [[0]; [0]].
Proof.
  unfold local_out. rewrite tiny_normed, tiny_weights. cbn [obind].
  rewrite tiny_attention_vec, tiny_attn_out.
  simpl map. rewrite !tiny_dense_out. unfold radd. simpl. rclean. reflexivity.
Qed.

Lemma tiny_spec_local_out (m : mask_t) :
  spec_local_out_raw_feed_forward Tiny.layer Tiny.params Tiny.x (Some m)
  = Some [[gelu 3]; [gelu 5]].
Proof.
  unfold spec_local_out_raw_feed_forward. rewrite tiny_normed, tiny_weights.
  cbn [obind]. rewrite tiny_attention_vec, tiny_attn_out.
  unfold Tiny.x. simpl map. rewrite !tiny_dense_out.
  unfold radd. simpl. rclean. reflexivity.
Qed.

(** C5 fails as stated.  On the block of width 1, whose normalization
    sends every row to 0, the output is 0 on both tokens; fed with the
    rows 3 and 5 of the block input, the feed-forward branch would make it
    [gelu 3] and [gelu 5], which are positive. *)
Lemma feed_forward_is_not_fed_the_raw_input :
  local_out Tiny.layer Tiny.params Tiny.x (Some (Stack.causal_mask 2))
  = Some [[0]; [0]] /\
  spec_local_out_raw_feed_forward Tiny.layer Tiny.params Tiny.x
    (Some (Stack.causal_mask 2))
  = Some [[gelu 3]; [gelu 5]] /\
  local_out Tiny.layer Tiny.params Tiny.x (Some (Stack.causal_mask 2))
  <> spec_local_out_raw_feed_forward Tiny.layer Tiny.params Tiny.x
       (Some (Stack.causal_mask 2)).
Proof.
  split; [apply tiny_local_out |]. split; [apply tiny_spec_local_out |].
  rewrite tiny_local_out, tiny_spec_local_out. intros [= H _].
  assert (Hpos := gelu_pos 3). lra.
Qed.

(** C5, as the code has it.  The feed-forward branch is computed from the
    layer-normalized rows, the same that the attention branch reads.  Two
    block inputs with the same normalization have the same output.  The
    output of a shard is, row by row, the output of the attention branch on
    the normalized rows plus the feed-forward branch of the normalized row:
    the expanding projection of the normalized row, the nonlinearity, and
    the projection back, and it raises where the attention branch does.
    In a block that [init] built, the expanded width is 4 times the shard's
    slice of the hidden width and the projection back has the full hidden
    width. *)
Theorem feed_forward_reads_normalized_input (l : TransformerLayerShard)
  (p : LayerParams) (x x' : list (list R)) (mask : option mask_t) :
  normed p x = normed p x' ->
  local_out l p x mask = local_out l p x' mask /\
  local_out l p x mask
  = (a <- attn_out l p (map (layer_norm (ln_p p)) x) mask ;;
     Some (map (fun ad => radd (fst ad) (snd ad))
               (combine a
                  (map (fun r =>
                          linear (dense_proj_o l) (dense_proj_o_p p)
                            (map gelu
                               (linear (dense_proj l) (dense_proj_p p)
                                       (layer_norm (ln_p p) r))))
                       x)))) /\
  (forall d h S, init d h S = Some l ->
     output_size (dense_proj l) = (dim_per_shard l * 4)%nat /\
     output_size (dense_proj_o l) = dim l).
Proof.
  intros Hn. split; [| split].
  - unfold local_out. now rewrite Hn.
  - unfold local_out, attn_out. fold (normed p x).
    destruct (attention_weights l p (normed p x) mask) as [weights |];
      [| reflexivity].
    cbn [obind]. unfold normed, dense_out. now rewrite map_map.
  - intros d h S. unfold init.
    destruct (Nat.eqb h 0 || Nat.eqb S 0); [discriminate |].
    destruct (Nat.eqb (d mod h) 0 && Nat.eqb (h mod S) 0); [| discriminate].
    intros [= <-]. split; reflexivity.
Qed.

Lemma feed_forward_reads_normalized_input_witness :
  normed Tiny.params Tiny.x = normed Tiny.params [[7]; [9]] /\
  local_out Tiny.layer Tiny.params Tiny.x (Some (Stack.causal_mask 2))
  = local_out Tiny.layer Tiny.params [[7]; [9]] (Some (Stack.causal_mask 2)) /\
  output_size (dense_proj Tiny.layer) = 4%nat.
Proof.
  assert (Hn : normed Tiny.params Tiny.x = normed Tiny.params [[7]; [9]]).
  { rewrite tiny_normed. unfold normed. simpl map.
    now rewrite !layer_norm_width_1. }
  split; [exact Hn |].
  destruct (feed_forward_reads_normalized_input Tiny.layer Tiny.params
              Tiny.x [[7]; [9]] (Some (Stack.causal_mask 2)) Hn)
    as (Hout & _ & Hwidth).
  split; [exact Hout |].
  exact (proj1 (Hwidth 1%nat 1%nat 1%nat eq_refl)).
Defined.

End LayerFacts.

(* --------------------------------------------------------------------- *)
(** ** The output head                                                    *)
(* --------------------------------------------------------------------- *)

Module ProjectionFacts.
Import Kernels KernelFacts Projection.
Local Open Scope R_scope.

Lemma rmax_nonempty (v : list R) : v <> [] -> exists mx, rmax v = Some mx.
Proof.
  destruct v as [| x v]; [congruence |]. intros _. simpl.
  destruct (rmax v); eauto.
Qed.

Lemma rmax_app (a c : list R) (ma mc : R) :
  rmax a = Some ma -> rmax c = Some mc -> rmax (a ++ c) = Some (Rmax ma mc).
Proof.
  revert ma. induction a as [| x a IH]; intros ma Ha Hc; [discriminate |].
  simpl in *. destruct (rmax a) as [m' |] eqn:Ea.
  - injection Ha as <-. rewrite (IH m' eq_refl Hc). now rewrite Rmax_assoc.
  - injection Ha as <-. destruct a; [| simpl in Ea; destruct (rmax a); discriminate].
    simpl. now rewrite Hc.
Qed.

(** The maximum of the shards' maxima is the maximum of the whole row. *)
Lemma pmax_of_local_maxima (rows : list (list R)) :
  rows <> [] ->
  Forall (fun r => r <> []) rows ->
  exists local gmax,
    omap rmax rows = Some local /\ pmax local = Some gmax /\
    rmax (concat rows) = Some gmax.
Proof.
  intros Hne Hrows. induction Hrows as [| r rows Hr Hrows IH]; [congruence |].
  destruct (rmax_nonempty r Hr) as (mr & Emr).
  destruct rows as [| r' rows'].
  - exists [mr], mr. simpl. rewrite Emr, app_nil_r. simpl. auto.
  - destruct IH as (local & gmax & Hlocal & Hgmax & Hconcat); [congruence |].
    exists (mr :: local), (Rmax mr gmax).
    rewrite omap_cons, Emr, Hlocal. cbn [obind].
    split; [reflexivity |]. split.
    + unfold pmax in *. cbn [rmax]. now rewrite Hgmax.
    + cbn [concat]. now apply rmax_app.
Qed.

Lemma arange_shift (start n1 : nat) :
  forall (n2 a : nat),
    map (fun i => Z.of_nat i + Z.of_nat start)%Z (seq (a + n1) n2)
    = map (fun i => Z.of_nat i + Z.of_nat (start + n1))%Z (seq a n2).
Proof.
  induction n2 as [| n2 IH]; intros a; simpl; [reflexivity |].
  f_equal; [lia | apply (IH (Datatypes.S a))].
Qed.

Lemma arange_from_app (start n1 n2 : nat) :
  arange_from start (n1 + n2)
  = arange_from start n1 ++ arange_from (start + n1) n2.
Proof.
  unfold arange_from. rewrite seq_app, map_app. f_equal.
  apply (arange_shift start n1 n2 0).
Qed.

Lemma rmul_app (a1 a2 c1 c2 : list R) :
  length a1 = length c1 ->
  rmul (a1 ++ a2) (c1 ++ c2) = rmul a1 c1 ++ rmul a2 c2.
Proof.
  unfold rmul. revert c1. induction a1 as [| x a1 IH]; intros [| y c1] Hlen;
    simpl in *; try discriminate; [reflexivity |].
  f_equal. apply IH. lia.
Qed.

Lemma onehot_app (i1 i2 : list Z) (t : Z) :
  onehot (i1 ++ i2) t = onehot i1 t ++ onehot i2 t.
Proof. unfold onehot. apply map_app. Qed.

Lemma rsum_map_opp {A : Type} (f : A -> R) (l : list A) :
  rsum (map (fun a => - f a) l) = - rsum (map f l).
Proof.
  induction l as [| a l IH]; simpl.
  - lra.
  - rewrite IH. lra.
Qed.

(** What [init] fixes. *)
Lemma projection_init_fields (vocab S : nat) (m : ProjectionShard) :
  init vocab S = Some m ->
  S <> 0%nat /\ vocab = (S * dim_per_shard m)%nat /\ shards m = S /\
  proj m = {| output_size := dim_per_shard m; with_bias := true |}.
Proof.
  unfold init. destruct (Nat.eqb_spec S 0) as [| HS]; [discriminate |].
  destruct (Nat.eqb_spec (vocab mod S) 0) as [Hmod |]; [| discriminate].
  intros [= <-]. simpl. repeat split; try assumption.
  apply Nat.Div0.div_exact in Hmod. exact Hmod.
Qed.

Lemma length_linear (l : Linear) (p : LinearParams) (x : list R) :
  length (linear l p x) = output_size l.
Proof. unfold linear. now rewrite length_map, length_seq. Qed.

(** The one-hot rows of the shards, laid side by side, are the one-hot row
    of the whole vocabulary: the sum of the shards' contributions is the
    contribution of the whole row. *)
Lemma rsum_shard_onehot {A : Type} (d : nat) (t : Z) (f : R -> R) (g : A -> list R) :
  (forall p, length (g p) = d) ->
  forall (params : list A) (a : nat),
    rsum (map (fun sp : nat * A =>
                 rsum (rmul (onehot (arange_from (fst sp * d) d) t)
                            (map f (g (snd sp)))))
              (combine (seq a (length params)) params))
    = rsum (rmul (onehot (arange_from (a * d) (length params * d)) t)
                 (map f (concat (map g params)))).
Proof.
  intros Hg. induction params as [| p params IH]; intros a.
  - reflexivity.
  - cbn [length seq combine map fst snd concat].
    rewrite rsum_cons, (IH (Datatypes.S a)). clear IH.
    replace (Datatypes.S (length params) * d)%nat
      with (d + length params * d)%nat by lia.
    rewrite arange_from_app.
    replace (a * d + d)%nat with (Datatypes.S a * d)%nat by lia.
    rewrite onehot_app, map_app, rmul_app, rsum_app; [reflexivity |].
    unfold onehot, arange_from. now rewrite !length_map, length_seq, Hg.
Qed.

(** The loss of one token is the cross-entropy of the whole row of logits,
    on every shard. *)
Lemma loss_token_is_naive (vocab S : nat) (m : ProjectionShard)
  (params : list ProjParams) (s : nat) (x : list R) (target : Z) :
  init vocab S = Some m ->
  (0 < vocab)%nat ->
  length params = S ->
  (s < S)%nat ->
  exists v,
    loss_token m params s x target = Some v /\
    naive_cross_entropy (all_logits m params x) target = Some v.
Proof.
  intros Hinit Hvocab Hlen Hs.
  destruct (projection_init_fields _ _ _ Hinit) as (HS & Hv & _ & Hproj).
  assert (Hd : dim_per_shard m <> 0%nat) by (intros E; rewrite E in Hv; lia).
  assert (Hrow : forall p, length (shard_logits m p x) = dim_per_shard m).
  { intros p. unfold shard_logits. now rewrite length_linear, Hproj. }
  set (rows := map (fun p => shard_logits m p x) params).
  destruct (pmax_of_local_maxima rows) as (local & gmax & Hlocal & Hgmax & Hall).
  { unfold rows. destruct params; simpl in *; [lia | congruence]. }
  { unfold rows. apply Forall_forall. intros r Hr. apply in_map_iff in Hr.
    destruct Hr as (p & <- & _). intros E. specialize (Hrow p).
    rewrite E in Hrow. simpl in Hrow. lia. }
  assert (Homap : omap (fun p => rmax (shard_logits m p x)) params = Some local).
  { rewrite <- Hlocal. unfold rows. clear. induction params as [| p ps IH].
    - reflexivity.
    - simpl map. rewrite !omap_cons, IH. reflexivity. }
  assert (Hsum : global_sum m params gmax x
                 = rsum (map exp (map (fun v => v - gmax) (all_logits m params x)))).
  { unfold global_sum, psum, shifted, all_logits.
    rewrite !concat_map, rsum_concat, !map_map. reflexivity. }
  eexists. split.
  - unfold loss_token.
    destruct (nth_error params s) eqn:En;
      [| apply nth_error_None in En; lia].
    cbn [obind]. unfold global_max. rewrite Homap. cbn [obind].
    rewrite Hgmax. cbn [obind]. reflexivity.
  - unfold naive_cross_entropy, log_softmax.
    fold rows in Hall. change (all_logits m params x) with (concat rows) in *.
    rewrite Hall. cbn [obind]. f_equal.
    unfold psum, local_loss, logsoftmax, shifted, gt_onehot, shard_index,
      shard_start_index.
    rewrite (rsum_map_opp
               (fun sp : nat * ProjParams =>
                  rsum (rmul (onehot (arange_from (fst sp * dim_per_shard m)
                                                  (dim_per_shard m)) target)
                             (map (fun v => v - ln (global_sum m params gmax x))
                                  (map (fun v => v - gmax)
                                       (shard_logits m (snd sp) x)))))).
    f_equal.
    rewrite (map_ext
      (fun sp : nat * ProjParams =>
         rsum (rmul (onehot (arange_from (fst sp * dim_per_shard m)
                                         (dim_per_shard m)) target)
                    (map (fun v => v - ln (global_sum m params gmax x))
                         (map (fun v => v - gmax) (shard_logits m (snd sp) x)))))
      (fun sp : nat * ProjParams =>
         rsum (rmul (onehot (arange_from (fst sp * dim_per_shard m)
                                         (dim_per_shard m)) target)
                    (map (fun v => v - gmax - ln (global_sum m params gmax x))
                         (shard_logits m (snd sp) x)))))
      by (intros sp; now rewrite map_map).
    rewrite (rsum_shard_onehot (dim_per_shard m) target
               (fun v => v - gmax - ln (global_sum m params gmax x))
               (fun p => shard_logits m p x) Hrow params 0).
    fold rows. rewrite Hsum. change (all_logits m params x) with (concat rows).
    rewrite !map_map. simpl.
    replace (length (concat rows)) with (length params * dim_per_shard m)%nat;
      [reflexivity |].
    unfold rows. clear - Hrow. induction params as [| p ps IH]; [reflexivity |].
    simpl. rewrite length_app, Hrow, <- IH. reflexivity.
Qed.

(** On any list of rows paired with targets, the three-reduce protocol is
    defined, gives one loss per pair, the cross-entropy of the whole row of
    logits, and gives it on every shard. *)
Lemma loss_pairs_are_naive (vocab S : nat) (m : ProjectionShard)
  (params : list ProjParams) (pairs : list (list R * Z)) :
  init vocab S = Some m ->
  (0 < vocab)%nat ->
  length params = S ->
  exists losses,
    omap (fun xt => naive_cross_entropy (all_logits m params (fst xt)) (snd xt))
         pairs = Some losses /\
    length losses = length pairs /\
    forall s, (s < S)%nat ->
      omap (fun xt => loss_token m params s (fst xt) (snd xt)) pairs = Some losses.
Proof.
  intros Hinit Hvocab Hlen.
  assert (HS : (0 < S)%nat).
  { destruct (projection_init_fields _ _ _ Hinit) as (HS & _). lia. }
  induction pairs as [| xt rest IH].
  - exists []. split; [reflexivity |]. split; [reflexivity | intros; reflexivity].
  - destruct IH as (losses & Hnaive & Hlength & Hloss).
    destruct (loss_token_is_naive vocab S m params 0 (fst xt) (snd xt)
                Hinit Hvocab Hlen HS) as (v & _ & Hv).
    exists (v :: losses). split; [| split].
    + rewrite omap_cons, Hv, Hnaive. reflexivity.
    + simpl. now rewrite Hlength.
    + intros s Hs.
      destruct (loss_token_is_naive vocab S m params s (fst xt) (snd xt)
                  Hinit Hvocab Hlen Hs) as (v' & Hv' & Hn').
      rewrite Hv in Hn'. injection Hn' as <-.
      rewrite omap_cons, Hv', (Hloss s Hs). reflexivity.
Qed.

(** The logits of a head built by [init] over a non-empty vocabulary are
    not of width 0. *)
Lemma init_width_positive (vocab S : nat) (m : ProjectionShard) :
  init vocab S = Some m ->
  (0 < vocab)%nat ->
  Nat.eqb (output_size (proj m)) 0 = false.
Proof.
  intros Hinit Hvocab.
  destruct (projection_init_fields _ _ _ Hinit) as (_ & Hv & _ & Hproj).
  apply Nat.eqb_neq. rewrite Hproj. cbn [output_size]. intros E.
  rewrite E in Hv. lia.
Qed.

(** C2.  For a head built by [init] over a non-empty vocabulary, with one
    parameter set per shard, and for every batch of activations and every
    batch of targets: on every shard the loss of the three-reduce protocol
    is the numerically stable log-softmax cross-entropy of the concatenation
    of the shards' logit slices, on the rows and targets that broadcasting
    pairs, and it raises where the rows and the targets cannot be paired.
    With one target per row it is defined: one loss per row, the
    cross-entropy of that row for its target, the same on every shard. *)
Theorem sharded_loss_is_naive_cross_entropy (vocab S : nat)
  (m : ProjectionShard) (params : list ProjParams)
  (x : list (list R)) (targets : list Z) :
  init vocab S = Some m ->
  (0 < vocab)%nat ->
  length params = S ->
  (forall s, (s < S)%nat ->
     loss m params s x targets = naive_loss m params x targets) /\
  (length targets = length x ->
   exists losses,
     omap (fun xt => naive_cross_entropy (all_logits m params (fst xt)) (snd xt))
          (combine x targets) = Some losses /\
     length losses = length x /\
     forall s, (s < S)%nat -> loss m params s x targets = Some losses).
Proof.
  intros Hinit Hvocab Hlen.
  assert (Hw := init_width_positive vocab S m Hinit Hvocab).
  split.
  - intros s Hs. unfold loss, naive_loss. rewrite Hw. cbn [obind].
    destruct (broadcast_rows x targets) as [pairs |]; [| reflexivity].
    cbn [obind].
    destruct (loss_pairs_are_naive vocab S m params pairs Hinit Hvocab Hlen)
      as (losses & Hnaive & _ & Hloss).
    now rewrite Hnaive, (Hloss s Hs).
  - intros Hrows.
    destruct (loss_pairs_are_naive vocab S m params (combine x targets)
                Hinit Hvocab Hlen) as (losses & Hnaive & Hlength & Hloss).
    exists losses. split; [exact Hnaive |]. split.
    + rewrite Hlength, length_combine, Hrows. apply Nat.min_id.
    + intros s Hs. unfold loss, broadcast_rows. rewrite Hw, Hrows, Nat.eqb_refl.
      cbn [obind]. apply Hloss, Hs.
Qed.

Lemma sharded_loss_is_naive_cross_entropy_witness :
  init 2 2 = Some TinyHead.head /\
  loss TinyHead.head TinyHead.params 0 [TinyHead.x] [0%Z]
  = naive_loss TinyHead.head TinyHead.params [TinyHead.x] [0%Z] /\
  exists losses,
    loss TinyHead.head TinyHead.params 0 [TinyHead.x] [0%Z] = Some losses /\
    loss TinyHead.head TinyHead.params 1 [TinyHead.x] [0%Z] = Some losses.
Proof.
  split; [reflexivity |].
  destruct (sharded_loss_is_naive_cross_entropy 2 2 TinyHead.head TinyHead.params
              [TinyHead.x] [0%Z] eq_refl (Nat.lt_0_succ 1) eq_refl)
    as (Hnaive & Hrows).
  split; [apply Hnaive; repeat constructor |].
  destruct (Hrows eq_refl) as (losses & _ & _ & Hloss).
  exists losses. split; apply Hloss; repeat constructor.
Defined.

Lemma map_const_seq (n a : nat) :
  map (fun _ : nat => 0) (seq a n) = repeat 0 n.
Proof.
  revert a. induction n as [| n IH]; intros a; simpl; [reflexivity |].
  f_equal. apply IH.
Qed.

(** The partial one-hot target of a shard that does not own the target is
    the zero vector. *)
Lemma gt_onehot_outside_range (m : ProjectionShard) (s : nat) (target : Z) :
  in_range (shard_start_index m s) (dim_per_shard m) target = false ->
  gt_onehot m s target = repeat 0 (dim_per_shard m).
Proof.
  unfold gt_onehot, shard_index, onehot, arange_from, in_range.
  intros Hout. apply andb_false_iff in Hout.
  rewrite map_map.
  rewrite (map_ext_in _ (fun _ => 0)).
  - apply map_const_seq.
  - intros i Hi. apply in_seq in Hi.
    destruct (Z.eqb_spec (Z.of_nat i + Z.of_nat (shard_start_index m s)) target);
      [| reflexivity].
    destruct Hout as [Hout | Hout].
    + apply Z.leb_gt in Hout. lia.
    + apply Z.ltb_ge in Hout. lia.
Qed.

(** The cross-entropy of two logits for the first class. *)
Lemma naive_two (a c : R) :
  c <= a ->
  naive_cross_entropy [a; c] 0 = Some (ln (1 + exp (c - a))).
Proof.
  intros Hle. unfold naive_cross_entropy, log_softmax. simpl.
  rewrite Rmax_left by exact Hle. simpl. f_equal.
  replace (a - a) with 0 by lra. rewrite exp_0.
  replace (1 + (exp (c - a) + 0)) with (1 + exp (c - a)) by lra.
  lra.
Qed.

Lemma tiny_head_logits (r : R) :
  all_logits TinyHead.head TinyHead.params [r] = [r; - r].
Proof.
  unfold all_logits, shard_logits, linear, dot, rmul, column. simpl.
  repeat f_equal; lra.
Qed.

Lemma tiny_head_loss (r : R) :
  0 <= r ->
  loss_token TinyHead.head TinyHead.params 0 [r] 0 = Some (ln (1 + exp (- r - r))).
Proof.
  intros Hr.
  destruct (loss_token_is_naive 2 2 TinyHead.head TinyHead.params 0 [r] 0%Z
              eq_refl (Nat.lt_0_succ 1) eq_refl (Nat.lt_0_succ 1))
    as (v & Hv & Hnaive).
  rewrite tiny_head_logits, naive_two in Hnaive by lra.
  congruence.
Qed.

(** C4, on the code.  On the head of two shards, shard 1 does not own
    target 0 and its partial one-hot target is the zero vector.  The
    logits of [loss] are projected from the activation 5 as it is, where
    [__call__] normalizes it to 0 first; the loss is [ln (1 + exp (-10))]
    and not the [ln 2] of the normalized activation. *)
Theorem loss_skips_layer_norm :
  init 2 2 = Some TinyHead.head /\
  gt_onehot TinyHead.head 1 0 = [0] /\
  all_logits TinyHead.head TinyHead.params TinyHead.x = [5; - 5] /\
  call_token TinyHead.head TinyHead.params TinyHead.x = [0; 0] /\
  layer_norm TinyHead.norm TinyHead.x = [0] /\
  loss_token TinyHead.head TinyHead.params 0 TinyHead.x 0
  = Some (ln (1 + exp (- 10))) /\
  loss_token TinyHead.head TinyHead.params 0 (layer_norm TinyHead.norm TinyHead.x) 0
  = Some (ln 2) /\
  ln (1 + exp (- 10)) <> ln 2.
Proof.
  assert (Hln : layer_norm TinyHead.norm TinyHead.x = [0])
    by apply LayerFacts.layer_norm_width_1.
  repeat split.
  - apply tiny_head_logits.
  - unfold call_token, TinyHead.params. cbn [map ln_p proj_p]. rewrite Hln.
    unfold linear, dot, rmul, column. simpl. repeat f_equal; lra.
  - exact Hln.
  - unfold TinyHead.x. rewrite tiny_head_loss by lra.
    do 4 f_equal. lra.
  - rewrite Hln, tiny_head_loss by lra.
    replace (- 0 - 0) with 0 by lra. rewrite exp_0.
    replace (1 + 1) with 2 by lra. reflexivity.
  - intros Heq. assert (Hpos := exp_pos (- 10)).
    apply ln_inv in Heq; [| lra | lra].
    assert (Hexp : exp (- 10) = exp 0) by (rewrite exp_0; lra).
    apply exp_inv in Hexp. lra.
Qed.

End ProjectionFacts.

(* --------------------------------------------------------------------- *)
(** ** The element types of the forward pass                              *)
(* --------------------------------------------------------------------- *)

Module DtypeFacts.
Import Precision Dtypes.

Lemma ret_narrow : narrow (ret bfloat16).
Proof. exists []. split; [reflexivity | constructor]. Qed.

Lemma bind_narrow (m : traced) (k : dtype -> traced) :
  narrow m -> narrow (k bfloat16) -> narrow (bind m k).
Proof.
  intros (ps & -> & Hps) (ps' & Hk & Hps').
  exists (ps ++ ps'). unfold bind. rewrite Hk.
  split; [reflexivity |]. apply Forall_app. now split.
Qed.

Lemma linear_narrow (m : Kernels.Linear) : narrow (linear m bfloat16).
Proof.
  unfold linear. destruct (Kernels.with_bias m); eexists;
    (split; [reflexivity |]); repeat constructor.
Qed.

Lemma layer_norm_narrow : narrow (layer_norm bfloat16).
Proof. eexists. split; [reflexivity |]. repeat constructor. Qed.

(** A block that is given a mask keeps [bfloat16] activations [bfloat16]
    and creates [bfloat16] parameters, whatever the element type of the
    mask: the mask is not added to the logits. *)
Lemma layer_narrow (l : Layer.TransformerLayerShard) (mask : dtype) :
  narrow (layer l bfloat16 (Some mask)).
Proof.
  unfold layer.
  apply bind_narrow; [apply layer_norm_narrow |].
  do 3 (apply bind_narrow; [apply linear_narrow |]).
  cbn [promote].
  apply bind_narrow; [apply ret_narrow |].
  cbn [promote].
  do 3 (apply bind_narrow; [apply linear_narrow |]).
  apply ret_narrow.
Qed.

Lemma run_layers_narrow (layers : list Layer.TransformerLayerShard) (mask : dtype) :
  narrow (run_layers layers bfloat16 mask).
Proof.
  induction layers as [| l layers IH]; [apply ret_narrow |].
  cbn [run_layers]. apply bind_narrow; [apply layer_narrow |].
  cbn [promote]. exact IH.
Qed.

(** Whatever the network and the element types of the token arrays,
    [train_loss] runs through and creates [bfloat16] parameters only. *)
Lemma train_loss_creates_narrow_params (c : Stack.CausalTransformerShard)
  (ctx tgt : dtype) :
  narrow (train_loss c ctx tgt).
Proof.
  unfold train_loss, eval, embedding, loss.
  apply bind_narrow; [| apply ret_narrow].
  apply bind_narrow.
  { apply bind_narrow; [apply linear_narrow | apply ret_narrow]. }
  apply bind_narrow; [apply run_layers_narrow |].
  apply bind_narrow; [apply linear_narrow |].
  cbn [promote]. apply ret_narrow.
Qed.

End DtypeFacts.

Set Implicit Arguments.

(* --------------------------------------------------------------------- *)
(** ** The training state                                                 *)
(* --------------------------------------------------------------------- *)

Module TrainingFacts.
Import Precision PrecisionFacts Training.

Section Structure.
Context {L : ArrayLib}.

Lemma skel_tree_map (f : array -> array) (t : tree) :
  skel (tree_map f t) = skel t.
Proof.
  induction t as [a | items IH] using tree_rect_items; simpl.
  - reflexivity.
  - f_equal. rewrite map_map. simpl.
    induction IH as [| [k v] items Hv _ IHitems]; [reflexivity |].
    simpl in *. now rewrite Hv, IHitems.
Qed.

(** [tree_multimap] succeeds on two trees of one structure, which is the
    structure of its result. *)
Lemma tree_multimap_defined (f : array -> array -> array) :
  forall a b, skel a = skel b ->
    exists c, tree_multimap f a b = Some c /\ skel c = skel a.
Proof.
  induction a as [x | xs IH] using tree_rect_items; intros [y | ys] Hs;
    try discriminate.
  - eexists. split; reflexivity.
  - simpl in Hs. injection Hs as Hs.
    assert (Hitems : exists rs,
      (fix items (xs ys : list (string * tree)) : option (list (string * tree)) :=
         match xs, ys with
         | [], [] => Some []
         | kx :: xs', ky :: ys' =>
             if String.eqb (fst kx) (fst ky) then
               r <- tree_multimap f (snd kx) (snd ky) ;;
               rs <- items xs' ys' ;;
               Some ((fst kx, r) :: rs)
             else None
         | _, _ => None
         end) xs ys = Some rs /\
      map (fun kv => (fst kv, skel (snd kv))) rs
      = map (fun kv => (fst kv, skel (snd kv))) xs).
    { revert ys Hs. induction IH as [| [kx tx] xs Hx _ IHxs]; intros ys Hs.
      - destruct ys; [| discriminate]. exists []. split; reflexivity.
      - destruct ys as [| [ky ty] ys]; [discriminate |].
        simpl in Hs. injection Hs as Hk Ht Hrest.
        destruct (Hx ty Ht) as (r & Hr & Hsr).
        destruct (IHxs ys Hrest) as (rs & Hrs & Hsrs).
        exists ((kx, r) :: rs). simpl in *.
        subst ky. rewrite String.eqb_refl, Hr. simpl.
        rewrite Hrs. simpl. split; [reflexivity |].
        now rewrite Hsr, Hsrs. }
    destruct Hitems as (rs & Hrs & Hsk).
    exists (Dict rs). split.
    + simpl. rewrite Hrs. reflexivity.
    + simpl. now rewrite Hsk.
Qed.

(** The result of [tree_multimap] has the structure of its arguments. *)
Lemma tree_multimap_skel (f : array -> array -> array) :
  forall a b c, tree_multimap f a b = Some c -> skel c = skel a /\ skel b = skel a.
Proof.
  induction a as [x | xs IH] using tree_rect_items; intros [y | ys] c H;
    simpl in H; try discriminate.
  - injection H as <-. split; reflexivity.
  - match type of H with option_map _ ?e = _ => destruct e as [rs |] eqn:E end;
      [| discriminate].
    simpl in H. injection H as <-. simpl.
    enough (Hmap : map (fun kv => (fst kv, skel (snd kv))) rs
                   = map (fun kv => (fst kv, skel (snd kv))) xs /\
                   map (fun kv => (fst kv, skel (snd kv))) ys
                   = map (fun kv => (fst kv, skel (snd kv))) xs)
      by (destruct Hmap as [-> ->]; split; reflexivity).
    revert ys rs E. induction IH as [| [kx tx] xs Hx _ IHxs]; intros ys rs E.
    + destruct ys; [| discriminate]. injection E as <-. split; reflexivity.
    + destruct ys as [| [ky ty] ys]; [discriminate |].
      simpl in E. destruct (String.eqb_spec kx ky) as [<- |]; [| discriminate].
      destruct (tree_multimap f tx ty) as [r |] eqn:Er; [| discriminate].
      simpl in E.
      match type of E with obind ?e _ = _ => destruct e as [rs' |] eqn:E' end;
        [| discriminate].
      simpl in E. injection E as <-.
      destruct (Hx ty r Er) as [Hr Hty].
      destruct (IHxs ys rs' E') as [Hrs Hys].
      simpl in *. rewrite Hr, Hty, Hrs, Hys. split; reflexivity.
Qed.

(** Narrowing the widened tree gives the tree back when it has no wide
    leaf and narrow contents survive the round trip. *)
Lemma to_bf16_to_f32 :
  (forall c : payload bfloat16,
     cast float32 bfloat16 (cast bfloat16 float32 c) = c) ->
  forall t, all_leaves (fun a => dt a <> float32) t -> to_bf16 (to_f32 t) = t.
Proof.
  intros Hrt t Ht. unfold to_bf16, to_f32. rewrite tree_map_compose.
  apply tree_map_fixes with (P := fun a => dt a <> float32); [| exact Ht].
  intros [d c] Hd. simpl in *. destruct d; simpl.
  - now elim Hd.
  - unfold astype. simpl. now rewrite Hrt.
  - reflexivity.
Qed.

(** A tree with a wide leaf is the narrow cast of no tree: what the
    initializer creates decides whether the accelerator parameters are a
    narrow cast before the first [update]. *)
Lemma narrow_cast_has_no_wide_leaf (t host : tree) :
  t = to_bf16 host -> all_leaves (fun a => dt a <> float32) t.
Proof. intros ->. apply to_bf16_no_wide. Qed.

End Structure.

Section Steps.
Context {L : ArrayLib} {T : TrainLib}.
Variable O : Type.

(** C6.  In a state whose accumulator has the structure of the parameters,
    [train] returns the loss values of the differentiated [train_loss] and a
    new state: the parameters are the old ones, the step counter is the old
    one plus 1, the accumulator is the old accumulator plus the gradient
    averaged over the data axis, and the host state is not touched. *)
Theorem train_accumulates_mean_gradient
  (self : CausalTransformer O) (sample : sample_t) :
  gradient_keeps_structure T ->
  skel (grad (tpu_state self)) = skel (params (tpu_state self)) ->
  let vg := value_and_grad_train_loss
              (to_bf16 (params (tpu_state self))) (obs sample) (target sample) in
  exists self',
    train self sample = Some (fst vg, self') /\
    params (tpu_state self') = params (tpu_state self) /\
    step (tpu_state self') = array_add_int (step (tpu_state self)) 1 /\
    tree_multimap array_add (grad (tpu_state self)) (tree_map pmean_batch (snd vg))
      = Some (grad (tpu_state self')) /\
    skel (grad (tpu_state self')) = skel (params (tpu_state self')) /\
    cpu_state self' = cpu_state self /\
    optimizer self' = optimizer self.
Proof.
  intros Hgrad Hs vg.
  destruct (tree_multimap_defined array_add (grad (tpu_state self))
              (tree_map pmean_batch (snd vg))) as (acc & Hacc & Hskel).
  { rewrite skel_tree_map. unfold vg. rewrite Hgrad.
    unfold to_bf16. rewrite skel_tree_map. exact Hs. }
  eexists. unfold train, train_fn. fold vg. rewrite Hacc. simpl.
  repeat split; try reflexivity.
  simpl. congruence.
Qed.

(** C7.  [update n] divides the accumulated gradient by [n], runs one step
    of the optimizer on it and the host optimizer state, applies the updates
    to the wide host parameters, writes the narrow cast of the new host
    parameters to the accelerator, zeroes the accumulator and keeps the
    step counter. *)
Theorem update_steps_and_resyncs (self : CausalTransformer O) (n : Z) :
  optimizer_keeps_structure (optimizer self) ->
  skel (grad (tpu_state self)) = skel (cpu_params (cpu_state self)) ->
  let g := tree_map (fun a => array_div a n) (grad (tpu_state self)) in
  let r := opt_update (optimizer self) g (opt_state (cpu_state self)) in
  exists self',
    update self n = Some self' /\
    opt_state (cpu_state self') = snd r /\
    apply_updates (cpu_params (cpu_state self)) (fst r)
      = Some (cpu_params (cpu_state self')) /\
    params (tpu_state self') = to_bf16 (cpu_params (cpu_state self')) /\
    grad (tpu_state self') = tree_map zeros_like (grad (tpu_state self)) /\
    step (tpu_state self') = step (tpu_state self) /\
    optimizer self' = optimizer self.
Proof.
  intros Hopt Hs g r.
  destruct (tree_multimap_defined apply_update (cpu_params (cpu_state self)) (fst r))
    as (new_params & Hnew & _).
  { unfold r. rewrite Hopt. unfold g. rewrite skel_tree_map. now symmetry. }
  eexists. unfold update, cpu_update_jit. fold g. fold r.
  unfold apply_updates in *. rewrite Hnew. simpl.
  repeat split; reflexivity.
Qed.

(** C10.  The new host state that [cpu_update_jit] returns does not depend
    on the accelerator state it is passed: the gradient is read from the
    field of the enclosing object.  The result is the same for any two
    accelerator states passed, and more generally for any two enclosing
    objects that agree on the optimizer and on the accumulator field. *)
Theorem cpu_update_jit_ignores_tpu_state_argument
  (self : CausalTransformer O) (cpu : cpu_state_t O) (grad_acc_no : Z) :
  (forall tpu1 tpu2,
     cpu_update_jit self cpu tpu1 grad_acc_no
     = cpu_update_jit self cpu tpu2 grad_acc_no) /\
  (forall self' tpu1 tpu2,
     optimizer self' = optimizer self ->
     grad (tpu_state self') = grad (tpu_state self) ->
     cpu_update_jit self' cpu tpu1 grad_acc_no
     = cpu_update_jit self cpu tpu2 grad_acc_no).
Proof.
  split.
  - intros tpu1 tpu2. reflexivity.
  - intros self' tpu1 tpu2 Hopt Hgrad.
    unfold cpu_update_jit. rewrite Hopt, Hgrad. reflexivity.
Qed.

(** In every state of the lifecycle the accelerator parameters are the
    narrow cast of the current host parameters, which head the history. *)
Lemma reachable_in_sync (opt : GradientTransformation O) self hist :
  narrow_survives_round_trip ->
  init_params_not_wide T ->
  reachable opt self hist ->
  params (tpu_state self) = to_bf16 (cpu_params (cpu_state self)) /\
  In (cpu_params (cpu_state self)) hist.
Proof.
  intros Hrt Hinit.
  induction 1 as [keys x | self hist sample loss self' _ IH Htrain
                 | self hist n self' _ IH Hupdate].
  - split; [| now left]. simpl.
    symmetry. apply to_bf16_to_f32.
    + exact Hrt.
    + apply Hinit.
  - unfold train in Htrain.
    destruct (train_fn (tpu_state self) (obs sample) (target sample))
      as [[v st] |] eqn:E; [| discriminate].
    simpl in Htrain. injection Htrain as _ <-. simpl.
    unfold train_fn in E.
    destruct (tree_multimap array_add _ _); [| discriminate].
    simpl in E. injection E as _ <-. simpl. exact IH.
  - split; [| now left].
    unfold update in Hupdate.
    destruct (cpu_update_jit self (cpu_state self) (tpu_state self) n);
      [| discriminate].
    simpl in Hupdate. injection Hupdate as <-. reflexivity.
Qed.

(** In every state of the lifecycle the accumulator and the host
    parameters have the structure of the accelerator parameters, so that
    [train] and [update] are defined there. *)
Lemma reachable_structure (opt : GradientTransformation O) self hist :
  reachable opt self hist ->
  optimizer self = opt /\
  skel (grad (tpu_state self)) = skel (params (tpu_state self)) /\
  skel (cpu_params (cpu_state self)) = skel (params (tpu_state self)).
Proof.
  induction 1 as [keys x | self hist sample loss self' _ IH Htrain
                 | self hist n self' _ IH Hupdate].
  - simpl. unfold to_f32. rewrite !skel_tree_map. auto.
  - destruct IH as (Hopt & Hg & Hc).
    unfold train in Htrain.
    destruct (train_fn (tpu_state self) (obs sample) (target sample))
      as [[v st] |] eqn:E; [| discriminate].
    simpl in Htrain. injection Htrain as _ <-. simpl.
    unfold train_fn in E.
    destruct (tree_multimap array_add _ _) as [acc |] eqn:Eacc; [| discriminate].
    simpl in E. injection E as _ <-. simpl.
    apply tree_multimap_skel in Eacc. destruct Eacc as [Hacc _].
    repeat split; congruence.
  - destruct IH as (Hopt & Hg & Hc).
    unfold update in Hupdate.
    destruct (cpu_update_jit self (cpu_state self) (tpu_state self) n)
      as [new_cpu |] eqn:E; [| discriminate].
    simpl in Hupdate. injection Hupdate as <-. simpl.
    unfold cpu_update_jit, apply_updates in E.
    destruct (tree_multimap apply_update _ _) as [new_params |] eqn:Enew;
      [| discriminate].
    simpl in E. injection E as <-. simpl.
    apply tree_multimap_skel in Enew. destruct Enew as [Hnew _].
    unfold to_bf16. rewrite !skel_tree_map.
    repeat split; congruence.
Qed.

(** A property of every leaf carries over to a weaker one. *)
Lemma all_leaves_impl (P Q : array -> Prop) :
  (forall a, P a -> Q a) ->
  forall t, all_leaves P t -> all_leaves Q t.
Proof.
  intros HPQ. induction t as [a | items IH] using tree_rect_items; intros Hall.
  - apply HPQ, Hall.
  - rewrite all_leaves_Dict in *. rewrite Forall_forall in *.
    intros kv Hkv. apply (IH kv Hkv), Hall, Hkv.
Qed.

(** The initial parameters of any network hold no [float32] leaf: what
    [init] returns are the parameters that [train_loss] created, and it
    creates [bfloat16] ones only. *)
Lemma created_params_not_wide (c : Stack.CausalTransformerShard) :
  init_returns_created_params T c -> init_params_not_wide T.
Proof.
  intros Hinit k x y.
  destruct (Hinit k x y) as (ctx & tgt & out & created & Htrace & Hleaves).
  destruct (DtypeFacts.train_loss_creates_narrow_params c ctx tgt)
    as (created' & Htrace' & Hnarrow).
  rewrite Htrace in Htrace'. injection Htrace' as _ <-.
  revert Hleaves. apply all_leaves_impl. intros a Ha.
  apply in_map_iff in Ha. destruct Ha as (np & Hnp & Hin).
  rewrite Forall_forall in Hnarrow. rewrite <- Hnp, (Hnarrow np Hin).
  discriminate.
Qed.

(** C8.  In every state of the lifecycle the accelerator parameters are the
    narrow cast of a host parameter tree of the history, and every [update]
    leaves them the narrow cast of the host parameters it has just
    computed.  At construction, where the host parameters are the wide
    cast of the accelerator ones, this rests on the element types of the
    forward pass of the network [c] that [init] runs: the embedding feeds
    [bfloat16] activations, the [float32] mask is not added to them, and
    every parameter is created [bfloat16]. *)
Theorem tpu_params_are_narrow_host_params (c : Stack.CausalTransformerShard)
  (opt : GradientTransformation O) (self : CausalTransformer O) (hist : list tree) :
  narrow_survives_round_trip ->
  init_returns_created_params T c ->
  reachable opt self hist ->
  (exists host, In host hist /\ params (tpu_state self) = to_bf16 host) /\
  (forall n self', update self n = Some self' ->
     reachable opt self' (cpu_params (cpu_state self') :: hist) /\
     params (tpu_state self') = to_bf16 (cpu_params (cpu_state self'))).
Proof.
  intros Hrt Hcreated Hreach.
  assert (Hinit := created_params_not_wide Hcreated).
  split.
  - destruct (reachable_in_sync Hrt Hinit Hreach) as [Hsync Hin]. eauto.
  - intros n self' Hupdate.
    assert (Hreach' := reach_update n Hreach Hupdate).
    split; [exact Hreach' |].
    apply (reachable_in_sync Hrt Hinit Hreach').
Qed.

End Steps.

#[local] Existing Instance Toy.arrays.
#[local] Existing Instance Toy.lib.

(** The small instance obeys the laws. *)
Lemma toy_round_trip : @narrow_survives_round_trip Toy.arrays.
Proof. intros c. reflexivity. Qed.

Lemma toy_gradient_keeps_structure : gradient_keeps_structure Toy.lib.
Proof. intros p ctx tgt. simpl. apply skel_tree_map. Qed.

Lemma toy_init_params_not_wide : init_params_not_wide Toy.lib.
Proof. intros k x y. simpl. split; [discriminate | exact I]. Qed.

(** The one weight of the small instance is among the parameters that the
    forward pass of the one-layer model creates. *)
Lemma toy_init_returns_created_params :
  init_returns_created_params Toy.lib TinyModel.model.
Proof.
  intros k x y. exists int32, int32. do 2 eexists.
  split; [reflexivity |]. simpl. split; [now left | exact I].
Qed.

Lemma toy_descent_keeps_structure :
  @optimizer_keeps_structure Toy.arrays Toy.lib nat Toy.descent.
Proof. intros g s. simpl. apply skel_tree_map. Qed.

Lemma train_accumulates_mean_gradient_witness :
  gradient_keeps_structure Toy.lib /\
  skel (grad (tpu_state Toy.start)) = skel (params (tpu_state Toy.start)) /\
  exists self',
    train Toy.start Toy.sample = Some ({| dt := bfloat16; buf := 9%Z |}, self') /\
    params (tpu_state self') = params (tpu_state Toy.start) /\
    step (tpu_state self') = {| dt := int32; buf := 1%Z |} /\
    grad (tpu_state self') = Dict [("w"%string, Leaf {| dt := bfloat16; buf := 2%Z |})].
Proof.
  split; [exact toy_gradient_keeps_structure |].
  split; [reflexivity |].
  destruct (@train_accumulates_mean_gradient Toy.arrays Toy.lib nat
              Toy.start Toy.sample toy_gradient_keeps_structure eq_refl)
    as (self' & Htrain & Hparams & Hstep & Hgrad & _).
  exists self'. repeat split.
  - exact Htrain.
  - exact Hparams.
  - exact Hstep.
  - simpl in Hgrad. now injection Hgrad as <-.
Defined.

Lemma update_steps_and_resyncs_witness :
  optimizer_keeps_structure (optimizer Toy.trained) /\
  skel (grad (tpu_state Toy.trained)) = skel (cpu_params (cpu_state Toy.trained)) /\
  exists self',
    update Toy.trained 1 = Some self' /\
    opt_state (cpu_state self') = 1%nat /\
    cpu_params (cpu_state self')
      = Dict [("w"%string, Leaf {| dt := float32; buf := 5%Z |})] /\
    params (tpu_state self')
      = Dict [("w"%string, Leaf {| dt := bfloat16; buf := 5%Z |})] /\
    grad (tpu_state self')
      = Dict [("w"%string, Leaf {| dt := bfloat16; buf := 0%Z |})] /\
    step (tpu_state self') = {| dt := int32; buf := 1%Z |}.
Proof.
  split; [exact toy_descent_keeps_structure |].
  split; [reflexivity |].
  destruct (@update_steps_and_resyncs Toy.arrays Toy.lib nat Toy.trained 1
              toy_descent_keeps_structure eq_refl)
    as (self' & Hupdate & Hopt & Hcpu & Htpu & Hgrad & Hstep & _).
  exists self'. repeat split.
  - exact Hupdate.
  - exact Hopt.
  - simpl in Hcpu. now injection Hcpu as <-.
  - rewrite Htpu. simpl in Hcpu. now injection Hcpu as <-.
  - exact Hgrad.
  - exact Hstep.
Defined.

(** The object before and after a step hold the same (zero) accumulator
    and different parameters: passed either accelerator state, the host
    update of either object is the same. *)
Lemma cpu_update_jit_ignores_tpu_state_argument_witness :
  optimizer Toy.updated = optimizer Toy.start /\
  grad (tpu_state Toy.updated) = grad (tpu_state Toy.start) /\
  params (tpu_state Toy.updated) <> params (tpu_state Toy.start) /\
  cpu_update_jit Toy.updated (cpu_state Toy.start) (tpu_state Toy.trained) 1
  = cpu_update_jit Toy.start (cpu_state Toy.start) (tpu_state Toy.start) 1.
Proof.
  split; [reflexivity |]. split; [reflexivity |]. split; [discriminate |].
  exact (proj2 (@cpu_update_jit_ignores_tpu_state_argument Toy.arrays Toy.lib nat
                  Toy.start (cpu_state Toy.start) 1)
               Toy.updated (tpu_state Toy.trained) (tpu_state Toy.start)
               eq_refl eq_refl).
Defined.

Lemma toy_updated_reachable :
  reachable Toy.descent Toy.updated
    [cpu_params (cpu_state Toy.updated); cpu_params (cpu_state Toy.start)].
Proof.
  apply reach_update with (self := Toy.trained) (n := 1%Z); [| reflexivity].
  apply reach_train with (self := Toy.start) (sample := Toy.sample)
                         (loss := @Array Toy.arrays bfloat16 9%Z);
    [| reflexivity].
  apply (@reach_init Toy.arrays Toy.lib nat Toy.descent 7%Z 1%Z).
Qed.

Lemma tpu_params_are_narrow_host_params_witness :
  narrow_survives_round_trip /\
  init_returns_created_params Toy.lib TinyModel.model /\
  reachable Toy.descent Toy.updated
    [cpu_params (cpu_state Toy.updated); cpu_params (cpu_state Toy.start)] /\
  exists host,
    In host [cpu_params (cpu_state Toy.updated); cpu_params (cpu_state Toy.start)] /\
    params (tpu_state Toy.updated) = to_bf16 host.
Proof.
  split; [exact toy_round_trip |].
  split; [exact toy_init_returns_created_params |].
  split; [exact toy_updated_reachable |].
  exact (proj1 (@tpu_params_are_narrow_host_params Toy.arrays Toy.lib nat
                  TinyModel.model Toy.descent Toy.updated _ toy_round_trip
                  toy_init_returns_created_params toy_updated_reachable)).
Defined.

End TrainingFacts.

(* --------------------------------------------------------------------- *)
(** ** More on the precision casters                                      *)
(* --------------------------------------------------------------------- *)

Module CastFacts.
Import Precision PrecisionFacts Training TrainingFacts.

Section Casts.
Context {L : ArrayLib}.

(** After [to_f32] no leaf is narrow. *)
Lemma to_f32_no_narrow (t : tree) :
  all_leaves (fun a => dt a <> bfloat16) (to_f32 t).
Proof.
  unfold to_f32.
  induction t as [a | items IH] using tree_rect_items.
  - simpl. destruct (dtype_eqb (dt a) bfloat16) eqn:E; simpl.
    + discriminate.
    + intros Heq. rewrite Heq in E. discriminate.
  - simpl. apply all_leaves_Dict. rewrite Forall_map.
    induction IH; constructor; simpl; auto.
Qed.

(** X1.  Widening is idempotent and leaves no narrow leaf: [to_f32] of a
    tree has no [bfloat16] leaf, and widening it again changes nothing. *)
Theorem to_f32_idempotent (t : tree) :
  all_leaves (fun a => dt a <> bfloat16) (to_f32 t) /\
  to_f32 (to_f32 t) = to_f32 t.
Proof.
  split; [apply to_f32_no_narrow |].
  apply tree_map_fixes with (P := fun a => dt a <> bfloat16).
  - intros a Ha. destruct (dt a); try reflexivity. now elim Ha.
  - apply to_f32_no_narrow.
Qed.

(** X2.  Both casters keep the keys and the shape of the tree, and a tree
    of leaves that are no floats of either width (token arrays) passes
    through both unchanged. *)
Theorem casts_keep_structure (t : tree) :
  skel (to_bf16 t) = skel t /\
  skel (to_f32 t) = skel t /\
  (all_leaves (fun a => dt a = int32) t -> to_bf16 t = t /\ to_f32 t = t).
Proof.
  split; [apply skel_tree_map |]. split; [apply skel_tree_map |].
  intros Hint. split; apply tree_map_fixes with (P := fun a => dt a = int32);
    try exact Hint; intros a Ha; now rewrite Ha.
Qed.

(** X3.  Widening and narrowing again is the identity on a tree that has no
    wide leaf, when a narrow value survives the round trip through the
    wide format. *)
Theorem narrow_wide_narrow_round_trip (t : tree) :
  narrow_survives_round_trip ->
  all_leaves (fun a => dt a <> float32) t ->
  to_bf16 (to_f32 t) = t.
Proof. intros Hrt Ht. now apply to_bf16_to_f32. Qed.

End Casts.

Lemma casts_keep_structure_witness :
  all_leaves (fun a => dt a = int32) Toy.int_tree /\
  to_bf16 Toy.int_tree = Toy.int_tree /\
  to_f32 Toy.int_tree = Toy.int_tree /\
  skel (to_bf16 Toy.mixed_tree) = skel Toy.mixed_tree.
Proof.
  assert (Hint : all_leaves (fun a => dt a = int32) Toy.int_tree)
    by (split; [reflexivity | exact I]).
  split; [exact Hint |].
  destruct (proj2 (proj2 (casts_keep_structure (L := Toy.arrays) Toy.int_tree)) Hint)
    as [Hb Hf].
  split; [exact Hb |]. split; [exact Hf |].
  exact (proj1 (casts_keep_structure (L := Toy.arrays) Toy.mixed_tree)).
Defined.

Lemma narrow_wide_narrow_round_trip_witness :
  @narrow_survives_round_trip Toy.arrays /\
  all_leaves (fun a => dt a <> float32) Toy.narrow_tree /\
  to_bf16 (to_f32 Toy.narrow_tree) = Toy.narrow_tree.
Proof.
  assert (Hn : all_leaves (fun a => dt a <> float32) Toy.narrow_tree)
    by (split; [discriminate | exact I]).
  split; [exact toy_round_trip |]. split; [exact Hn |].
  exact (@narrow_wide_narrow_round_trip Toy.arrays Toy.narrow_tree toy_round_trip Hn).
Defined.

End CastFacts.

(* --------------------------------------------------------------------- *)
(** ** Runs of the lifecycle                                              *)
(* --------------------------------------------------------------------- *)

Module LifecycleFacts.
Import Precision PrecisionFacts Training TrainingFacts.

Section Runs.
Context {L : ArrayLib} {T : TrainLib}.
Variable O : Type.

(** One call from a state of the lifecycle is defined and leads to a state
    of the lifecycle. *)
Lemma run_call_reachable (opt : GradientTransformation O)
  (self : CausalTransformer O) (hist : list tree) (c : call) :
  gradient_keeps_structure T ->
  optimizer_keeps_structure opt ->
  reachable opt self hist ->
  exists self' hist', run_call self c = Some self' /\ reachable opt self' hist'.
Proof.
  intros Hgrad Hopt Hreach.
  destruct (reachable_structure Hreach) as (Ho & Hg & Hc).
  destruct c as [sample | n]; simpl.
  - destruct (tree_multimap_defined array_add (grad (tpu_state self))
                (tree_map pmean_batch
                   (snd (value_and_grad_train_loss
                           (to_bf16 (params (tpu_state self)))
                           (obs sample) (target sample)))))
      as (acc & Hacc & _).
    { rewrite skel_tree_map, Hgrad. unfold to_bf16. now rewrite skel_tree_map. }
    assert (Htrain : exists loss self', train self sample = Some (loss, self')).
    { unfold train, train_fn. rewrite Hacc. simpl. eauto. }
    destruct Htrain as (loss & self' & Htrain).
    exists self', hist. rewrite Htrain. simpl.
    split; [reflexivity |]. exact (reach_train sample Hreach Htrain).
  - assert (Hupdate : exists self', update self n = Some self').
    { unfold update, cpu_update_jit, apply_updates.
      destruct (tree_multimap_defined apply_update (cpu_params (cpu_state self))
                  (fst (opt_update (optimizer self)
                          (tree_map (fun a => array_div a n) (grad (tpu_state self)))
                          (opt_state (cpu_state self)))))
        as (new_params & Hnew & _).
      { rewrite Ho, Hopt, skel_tree_map. congruence. }
      rewrite Hnew. simpl. eauto. }
    destruct Hupdate as (self' & Hupdate).
    exists self', (cpu_params (cpu_state self') :: hist).
    split; [exact Hupdate |]. exact (reach_update n Hreach Hupdate).
Qed.

(** X4.  From any state of the lifecycle, no sequence of [train] and
    [update] calls raises: when gradients have the structure of the
    parameters and the optimizer's updates that of the gradient, every
    [tree_multimap] of the run meets two trees of one structure. *)
Theorem lifecycle_never_raises (opt : GradientTransformation O) (cs : list call) :
  gradient_keeps_structure T ->
  optimizer_keeps_structure opt ->
  forall (self : CausalTransformer O) (hist : list tree),
    reachable opt self hist ->
    exists self' hist',
      run_calls self cs = Some self' /\ reachable opt self' hist'.
Proof.
  intros Hgrad Hopt.
  induction cs as [| c cs IH]; intros self hist Hreach.
  - exists self, hist. split; [reflexivity | exact Hreach].
  - destruct (run_call_reachable c Hgrad Hopt Hreach)
      as (self1 & hist1 & Hcall & Hreach1).
    destruct (IH self1 hist1 Hreach1) as (self' & hist' & Hrun & Hreach').
    exists self', hist'. simpl. rewrite Hcall. simpl. auto.
Qed.

(** X5.  In every state of the lifecycle the accelerator parameters are
    narrow already: the cast that [train] applies before differentiating
    changes nothing, and the loss [train] returns is the loss at the stored
    parameters themselves. *)
Theorem train_differentiates_at_stored_params (opt : GradientTransformation O)
  (self : CausalTransformer O) (hist : list tree) :
  narrow_survives_round_trip ->
  init_params_not_wide T ->
  reachable opt self hist ->
  to_bf16 (params (tpu_state self)) = params (tpu_state self) /\
  (forall sample loss self',
     train self sample = Some (loss, self') ->
     loss = fst (value_and_grad_train_loss (params (tpu_state self))
                   (obs sample) (target sample))).
Proof.
  intros Hrt Hinit Hreach.
  assert (Hnarrow : to_bf16 (params (tpu_state self)) = params (tpu_state self)).
  { destruct (reachable_in_sync Hrt Hinit Hreach) as [Hsync _].
    rewrite Hsync.
    apply tree_map_fixes with (P := fun a => dt a <> float32).
    - intros a Ha. destruct (dt a); try reflexivity. now elim Ha.
    - apply to_bf16_no_wide. }
  split; [exact Hnarrow |].
  intros sample loss self' Htrain. unfold train, train_fn in Htrain.
  rewrite Hnarrow in Htrain.
  destruct (tree_multimap array_add _ _); [| discriminate].
  simpl in Htrain. now injection Htrain as <- _.
Qed.

Lemma iter_shift {A : Type} (f : A -> A) (n : nat) (a : A) :
  Nat.iter n f (f a) = f (Nat.iter n f a).
Proof.
  induction n as [| n IH]; simpl; [reflexivity | now rewrite IH].
Qed.

(** X6.  Over any run, the step counter is the counter at the start plus 1
    for every [train] call of the run: [update] calls leave it alone. *)
Theorem step_counts_train_calls (cs : list call) :
  forall self self' : CausalTransformer O,
    run_calls self cs = Some self' ->
    step (tpu_state self')
    = Nat.iter (count_trains cs) (fun a => array_add_int a 1) (step (tpu_state self)).
Proof.
  induction cs as [| c cs IH]; intros self self' Hrun; simpl in Hrun.
  - now injection Hrun as <-.
  - destruct (run_call self c) as [self1 |] eqn:Hcall; [| discriminate].
    simpl in Hrun. rewrite (IH self1 self' Hrun).
    destruct c as [sample | n]; simpl in Hcall |- *.
    + unfold train, train_fn in Hcall.
      destruct (tree_multimap array_add _ _); [| discriminate].
      simpl in Hcall. injection Hcall as <-. simpl.
      apply (iter_shift (fun a => array_add_int a 1)).
    + unfold update in Hcall.
      destruct (cpu_update_jit self (cpu_state self) (tpu_state self) n);
        [| discriminate].
      simpl in Hcall. now injection Hcall as <-.
Qed.

(** X7.  Calls of [train] with no [update] between them accumulate: all of
    them differentiate at the same parameters, which they leave unchanged
    with the host state, and the accumulator ends as the one at the start
    plus the mean gradient of every sample, in the order of the calls. *)
Theorem trains_accumulate_at_fixed_params (samples : list sample_t) :
  gradient_keeps_structure T ->
  forall self : CausalTransformer O,
    skel (grad (tpu_state self)) = skel (params (tpu_state self)) ->
    exists self',
      run_calls self (map CallTrain samples) = Some self' /\
      params (tpu_state self') = params (tpu_state self) /\
      cpu_state self' = cpu_state self /\
      accumulate (params (tpu_state self)) (grad (tpu_state self)) samples
        = Some (grad (tpu_state self')).
Proof.
  intros Hgrad.
  induction samples as [| s samples IH]; intros self Hs.
  - exists self. repeat split; reflexivity.
  - destruct (tree_multimap_defined array_add (grad (tpu_state self))
                (tree_map pmean_batch
                   (snd (value_and_grad_train_loss
                           (to_bf16 (params (tpu_state self)))
                           (obs s) (target s)))))
      as (acc & Hacc & Hskel).
    { rewrite skel_tree_map, Hgrad. unfold to_bf16. now rewrite skel_tree_map. }
    set (self1 := {| optimizer := optimizer self;
                     tpu_state := {| params := params (tpu_state self);
                                     step := array_add_int (step (tpu_state self)) 1;
                                     grad := acc |};
                     cpu_state := cpu_state self |}).
    destruct (IH self1) as (self' & Hrun & Hp & Hc & Hsum).
    { simpl. congruence. }
    exists self'. simpl map. simpl run_calls.
    unfold train, train_fn. rewrite Hacc. simpl.
    fold self1. rewrite Hrun. repeat split; try assumption.
    rewrite Hacc. simpl. exact Hsum.
Qed.

(** X20.  Accumulation composes with the update: after [train] on each of
    the samples and then [update n], the optimizer has been run once, on
    the accumulated sum divided by [n] and the host optimizer state; the
    host parameters are the old ones with the updates applied, the
    accelerator parameters their narrow cast, and the accumulator is the
    zeroed sum. *)
Theorem trains_then_update (n : Z) (samples : list sample_t) :
  gradient_keeps_structure T ->
  forall self : CausalTransformer O,
    optimizer_keeps_structure (optimizer self) ->
    skel (grad (tpu_state self)) = skel (params (tpu_state self)) ->
    skel (cpu_params (cpu_state self)) = skel (params (tpu_state self)) ->
    exists acc self',
      accumulate (params (tpu_state self)) (grad (tpu_state self)) samples = Some acc /\
      run_calls self (map CallTrain samples ++ [CallUpdate n]) = Some self' /\
      opt_state (cpu_state self')
      = snd (opt_update (optimizer self) (tree_map (fun a => array_div a n) acc)
                        (opt_state (cpu_state self))) /\
      apply_updates (cpu_params (cpu_state self))
        (fst (opt_update (optimizer self) (tree_map (fun a => array_div a n) acc)
                         (opt_state (cpu_state self))))
      = Some (cpu_params (cpu_state self')) /\
      params (tpu_state self') = to_bf16 (cpu_params (cpu_state self')) /\
      grad (tpu_state self') = tree_map zeros_like acc.
Proof.
  intros Hgrad.
  induction samples as [| s samples IH]; intros self Hopt Hg Hc.
  - exists (grad (tpu_state self)).
    destruct (tree_multimap_defined apply_update (cpu_params (cpu_state self))
                (fst (opt_update (optimizer self)
                        (tree_map (fun a => array_div a n) (grad (tpu_state self)))
                        (opt_state (cpu_state self)))))
      as (new_params & Hnew & _).
    { rewrite Hopt, skel_tree_map. congruence. }
    eexists. split; [reflexivity |]. simpl.
    unfold update, cpu_update_jit, apply_updates. rewrite Hnew. simpl.
    repeat split; reflexivity.
  - destruct (tree_multimap_defined array_add (grad (tpu_state self))
                (tree_map pmean_batch
                   (snd (value_and_grad_train_loss
                           (to_bf16 (params (tpu_state self)))
                           (obs s) (target s)))))
      as (acc1 & Hacc1 & Hskel).
    { rewrite skel_tree_map, Hgrad. unfold to_bf16. now rewrite skel_tree_map. }
    set (self1 := {| optimizer := optimizer self;
                     tpu_state := {| params := params (tpu_state self);
                                     step := array_add_int (step (tpu_state self)) 1;
                                     grad := acc1 |};
                     cpu_state := cpu_state self |}).
    destruct (IH self1) as (acc & self' & Hsum & Hrun & Hrest).
    { exact Hopt. }
    { simpl. congruence. }
    { exact Hc. }
    exists acc, self'. simpl accumulate. rewrite Hacc1. simpl obind.
    split; [exact Hsum |]. split; [| exact Hrest].
    simpl map. simpl app. simpl run_calls.
    unfold train, train_fn. rewrite Hacc1. simpl.
    fold self1. exact Hrun.
Qed.

End Runs.

#[local] Existing Instance Toy.arrays.
#[local] Existing Instance Toy.lib.

Lemma lifecycle_never_raises_witness :
  gradient_keeps_structure Toy.lib /\
  optimizer_keeps_structure Toy.descent /\
  reachable Toy.descent Toy.updated
    [cpu_params (cpu_state Toy.updated); cpu_params (cpu_state Toy.start)] /\
  exists self' hist',
    run_calls Toy.updated
      [CallTrain Toy.sample; CallTrain Toy.sample; CallUpdate 2] = Some self' /\
    reachable Toy.descent self' hist'.
Proof.
  split; [exact toy_gradient_keeps_structure |].
  split; [exact toy_descent_keeps_structure |].
  split; [exact toy_updated_reachable |].
  exact (@lifecycle_never_raises Toy.arrays Toy.lib nat Toy.descent
           [CallTrain Toy.sample; CallTrain Toy.sample; CallUpdate 2]
           toy_gradient_keeps_structure toy_descent_keeps_structure
           Toy.updated _ toy_updated_reachable).
Defined.

Lemma train_differentiates_at_stored_params_witness :
  narrow_survives_round_trip /\
  init_params_not_wide Toy.lib /\
  reachable Toy.descent Toy.updated
    [cpu_params (cpu_state Toy.updated); cpu_params (cpu_state Toy.start)] /\
  to_bf16 (params (tpu_state Toy.updated)) = params (tpu_state Toy.updated).
Proof.
  split; [exact toy_round_trip |].
  split; [exact toy_init_params_not_wide |].
  split; [exact toy_updated_reachable |].
  exact (proj1 (@train_differentiates_at_stored_params Toy.arrays Toy.lib nat
                  Toy.descent Toy.updated _ toy_round_trip
                  toy_init_params_not_wide toy_updated_reachable)).
Defined.

Lemma step_counts_train_calls_witness :
  run_calls Toy.start [CallTrain Toy.sample; CallUpdate 1] = Some Toy.updated /\
  step (tpu_state Toy.updated)
  = Nat.iter 1 (fun a => array_add_int a 1) (step (tpu_state Toy.start)).
Proof.
  split; [reflexivity |].
  exact (@step_counts_train_calls Toy.arrays Toy.lib nat
           [CallTrain Toy.sample; CallUpdate 1] Toy.start Toy.updated eq_refl).
Defined.

Lemma trains_accumulate_at_fixed_params_witness :
  gradient_keeps_structure Toy.lib /\
  skel (grad (tpu_state Toy.start)) = skel (params (tpu_state Toy.start)) /\
  exists self',
    run_calls Toy.start (map CallTrain [Toy.sample; Toy.sample]) = Some self' /\
    params (tpu_state self') = params (tpu_state Toy.start) /\
    grad (tpu_state self')
    = Dict [("w"%string, Leaf {| dt := bfloat16; buf := 4%Z |})].
Proof.
  split; [exact toy_gradient_keeps_structure |].
  split; [reflexivity |].
  destruct (@trains_accumulate_at_fixed_params Toy.arrays Toy.lib nat
              [Toy.sample; Toy.sample] toy_gradient_keeps_structure
              Toy.start eq_refl)
    as (self' & Hrun & Hp & _ & Hsum).
  exists self'. split; [exact Hrun |]. split; [exact Hp |].
  simpl in Hsum. now injection Hsum as <-.
Defined.

Lemma trains_then_update_witness :
  gradient_keeps_structure Toy.lib /\
  optimizer_keeps_structure (optimizer Toy.start) /\
  exists self',
    run_calls Toy.start (map CallTrain [Toy.sample; Toy.sample] ++ [CallUpdate 2])
    = Some self' /\
    cpu_params (cpu_state self')
    = Dict [("w"%string, Leaf {| dt := float32; buf := 5%Z |})] /\
    grad (tpu_state self')
    = Dict [("w"%string, Leaf {| dt := bfloat16; buf := 0%Z |})].
Proof.
  split; [exact toy_gradient_keeps_structure |].
  split; [exact toy_descent_keeps_structure |].
  destruct (@trains_then_update Toy.arrays Toy.lib nat 2 [Toy.sample; Toy.sample]
              toy_gradient_keeps_structure Toy.start
              toy_descent_keeps_structure eq_refl eq_refl)
    as (acc & self' & Hsum & Hrun & _ & Hcpu & _ & Hgrad).
  exists self'. split; [exact Hrun |].
  simpl in Hsum. injection Hsum as <-.
  split.
  - simpl in Hcpu. now injection Hcpu as <-.
  - exact Hgrad.
Defined.

End LifecycleFacts.

(* --------------------------------------------------------------------- *)
(** ** More on the sharded embedding                                      *)
(* --------------------------------------------------------------------- *)

Unset Implicit Arguments.

Module ShardingFacts.
Import Kernels KernelFacts Embedding EmbeddingFacts.
Local Open Scope R_scope.

(** The one-hot row over an index range, position by position. *)
Lemma onehot_arange (start n : nat) (tok : Z) :
  onehot (arange_from start n) tok
  = map (fun i => if Z.eqb (Z.of_nat i + Z.of_nat start) tok then 1 else 0)
        (seq 0 n).
Proof. unfold onehot, arange_from. now rewrite map_map. Qed.

(** X8.  Every token of the vocabulary has exactly one owner: on the shard
    [tok / dim_per_shard] the one-hot row of line 33 has its single 1 at
    position [tok mod dim_per_shard], and on every other shard it is
    zero, also for a token at the boundary of two ranges. *)
Theorem every_token_has_one_owner (vocab width S : nat) (e : EmbeddingShard)
  (tok : Z) (s : nat) :
  init vocab width S = Some e ->
  (0 <= tok < Z.of_nat vocab)%Z ->
  (Z.to_nat tok / dim_per_shard e < S)%nat /\
  onehot (shard_index e s) tok
  = map (fun i =>
           if Nat.eqb s (Z.to_nat tok / dim_per_shard e)
              && Nat.eqb i (Z.to_nat tok mod dim_per_shard e)
           then 1 else 0)
        (seq 0 (dim_per_shard e)).
Proof.
  intros Hinit Htok.
  destruct (embedding_init_fields _ _ _ _ Hinit) as (HS & Hvocab & _ & _ & _).
  set (d := dim_per_shard e) in *. set (t := Z.to_nat tok).
  assert (Ht : tok = Z.of_nat t) by (unfold t; lia).
  assert (Hd : d <> 0%nat) by (intros E; rewrite E in Hvocab; lia).
  assert (Hdm := Nat.div_mod_eq t d).
  assert (Hmod := Nat.mod_upper_bound t d Hd).
  split.
  - apply Nat.Div0.div_lt_upper_bound. lia.
  - unfold shard_index, shard_start_index. fold d. rewrite onehot_arange.
    apply map_ext_in. intros i Hi. apply in_seq in Hi.
    destruct (Z.eqb_spec (Z.of_nat i + Z.of_nat (s * d)) tok) as [E | E];
      destruct (Nat.eqb_spec s (t / d)) as [Es | Es];
      destruct (Nat.eqb_spec i (t mod d)) as [Ei | Ei];
      simpl; try reflexivity; exfalso.
    + apply Ei. assert (Hit : (i + s * d = t)%nat) by lia.
      apply (Nat.mod_unique t d s i); lia.
    + apply Es. assert (Hit : (i + s * d = t)%nat) by lia.
      apply (Nat.div_unique t d s i); lia.
    + apply Es. assert (Hit : (i + s * d = t)%nat) by lia.
      apply (Nat.div_unique t d s i); lia.
    + apply E. subst s i. lia.
Qed.

Lemma every_token_has_one_owner_witness :
  let e := {| in_dim := 4; out_dim := 1; dim_per_shard := 2; shards := 2;
              proj := {| output_size := 1; with_bias := true |} |} in
  init 4 1 2 = Some e /\
  onehot (shard_index e 0) 2 = [0; 0] /\
  onehot (shard_index e 1) 2 = [1; 0].
Proof.
  intros e. split; [reflexivity |].
  split.
  - refine (eq_trans (proj2 (every_token_has_one_owner 4 1 2 e 2%Z 0 eq_refl _)) _).
    + simpl. lia.
    + reflexivity.
  - refine (eq_trans (proj2 (every_token_has_one_owner 4 1 2 e 2%Z 1 eq_refl _)) _).
    + simpl. lia.
    + reflexivity.
Defined.

(** X9.  A token outside the vocabulary does not raise: no shard owns it,
    every shard contributes its bias, and the embedding is the mean of the
    shards' biases, the same for all such tokens. *)
Theorem unknown_token_embeds_to_mean_bias (vocab width S : nat)
  (e : EmbeddingShard) (params : list LinearParams) (tok : Z) :
  init vocab width S = Some e ->
  length params = S ->
  (tok < 0 \/ Z.of_nat vocab <= tok)%Z ->
  call_token e params tok
  = map (fun j => rsum (map (fun p => nth j (b p) 0) params) / INR S)
        (seq 0 width).
Proof.
  intros Hinit Hlen Htok.
  destruct (embedding_init_fields _ _ _ _ Hinit) as (HS & Hvocab & _ & _ & _).
  unfold call_token.
  assert (Hvals : map (fun sp => proj_out e (fst sp) (snd sp) tok)
                      (combine (seq 0 (length params)) params)
                  = map (fun sp : nat * LinearParams =>
                           map (fun j => nth j (b (snd sp)) 0) (seq 0 width))
                        (combine (seq 0 (length params)) params)).
  { apply map_ext_in. intros [s p] Hsp. apply in_combine_l in Hsp.
    apply in_seq in Hsp. simpl fst. simpl snd.
    rewrite (proj_out_row_plus_bias vocab width S e s p tok Hinit).
    unfold shard_start_index.
    replace (in_range (s * dim_per_shard e) (dim_per_shard e) tok) with false.
    - apply map_ext. intros j. lra.
    - symmetry. apply in_range_false. nia. }
  rewrite Hvals. clear Hvals.
  set (vals := map _ (combine (seq 0 (length params)) params)).
  assert (Hvlen : length vals = S).
  { unfold vals. now rewrite length_map, length_combine, length_seq, Nat.min_id. }
  rewrite (pmean_row_width vals width).
  2: { intros ->. simpl in Hvlen. congruence. }
  2: { intros v0 Hin. unfold vals in Hin. apply in_map_iff in Hin.
       destruct Hin as (sp & <- & _). now rewrite length_map, length_seq. }
  apply map_ext_in. intros j Hj. apply in_seq in Hj.
  unfold pmean, column. rewrite length_map, Hvlen. f_equal.
  unfold vals. rewrite map_map.
  erewrite map_ext;
    [| intros sp; rewrite nth_map_seq by lia; cbv beta; reflexivity].
  now rewrite (map_snd_combine_seq (fun p => nth j (b p) 0) params 0).
Qed.

Lemma unknown_token_embeds_to_mean_bias_witness :
  let e := {| in_dim := 2; out_dim := 1; dim_per_shard := 1; shards := 2;
              proj := {| output_size := 1; with_bias := true |} |} in
  let params := [ {| w := [[2]]; b := [1] |}; {| w := [[4]]; b := [5] |} ] in
  init 2 1 2 = Some e /\
  call_token e params 7 = [3] /\
  call_token e params (-1) = [3].
Proof.
  intros e params. split; [reflexivity |].
  split.
  - rewrite (unknown_token_embeds_to_mean_bias 2 1 2 e params 7%Z eq_refl eq_refl).
    + simpl. f_equal. lra.
    + right. simpl. lia.
  - rewrite (unknown_token_embeds_to_mean_bias 2 1 2 e params (-1)%Z eq_refl eq_refl).
    + simpl. f_equal. lra.
    + left. lia.
Defined.

End ShardingFacts.

(* --------------------------------------------------------------------- *)
(** ** More on the transformer block                                      *)
(* --------------------------------------------------------------------- *)

Module AttentionFacts.
Import Kernels KernelFacts Layer.
Local Open Scope R_scope.

(** Cutting a row into [n] pieces of [d] and joining them gives the row. *)
Lemma concat_chunks (d : nat) :
  forall (n : nat) (row : list R),
    length row = (n * d)%nat ->
    concat (map (fun h => firstn d (skipn (h * d) row)) (seq 0 n)) = row.
Proof.
  induction n as [| n IH]; intros row Hlen.
  - simpl in *. now apply length_zero_iff_nil in Hlen.
  - cbn [seq map concat]. rewrite <- seq_shift, map_map.
    rewrite (map_ext _ (fun h => firstn d (skipn (h * d) (skipn d row)))).
    + rewrite (IH (skipn d row)).
      * simpl. apply firstn_skipn.
      * rewrite length_skipn. lia.
    + intros h. rewrite skipn_skipn. do 2 f_equal. lia.
Qed.

(** X10.  The assertions of [__init__] make the reshape of lines 64-66
    exact: the width of a shard is the number of its heads times the width
    of a head, the shards' widths make up the hidden width, and splitting
    a row of a shard's width into heads and joining the heads gives the
    row back. *)
Theorem init_makes_head_split_exact (dim heads shards : nat)
  (l : TransformerLayerShard) :
  init dim heads shards = Some l ->
  dim_per_shard l = (heads_per_shard l * dim_per_head l)%nat /\
  Layer.dim l = (shards * dim_per_shard l)%nat /\
  output_size (dense_proj l) = (dim_per_shard l * 4)%nat /\
  (forall row, length row = dim_per_shard l -> concat (split_heads l row) = row).
Proof.
  unfold init.
  destruct (Nat.eqb_spec heads 0) as [| Hh]; [discriminate |].
  destruct (Nat.eqb_spec shards 0) as [| Hs]; [discriminate |].
  destruct (Nat.eqb_spec (dim mod heads) 0) as [Hdh |]; [| discriminate].
  destruct (Nat.eqb_spec (heads mod shards) 0) as [Hhs |]; [| discriminate].
  simpl. intros [= <-]. simpl.
  apply Nat.Div0.div_exact in Hdh. apply Nat.Div0.div_exact in Hhs.
  assert (Hwidth : (dim / shards = heads / shards * (dim / heads))%nat).
  { rewrite Hdh at 1. rewrite Hhs at 1.
    rewrite <- Nat.mul_assoc, Nat.mul_comm, Nat.div_mul by exact Hs. reflexivity. }
  repeat split.
  - exact Hwidth.
  - rewrite Hwidth. clear Hwidth.
    remember (dim / heads)%nat as a. remember (heads / shards)%nat as c. nia.
  - intros row Hrow. unfold split_heads. simpl.
    apply concat_chunks. now rewrite Hrow.
Qed.

Lemma init_makes_head_split_exact_witness :
  init 8 4 2 = Some
    {| Layer.dim := 8; dim_per_head := 2; heads_per_shard := 2; dim_per_shard := 4;
       q := {| output_size := 4; with_bias := false |};
       v := {| output_size := 4; with_bias := false |};
       k := {| output_size := 4; with_bias := false |};
       o := {| output_size := 8; with_bias := false |};
       dense_proj := {| output_size := 16; with_bias := true |};
       dense_proj_o := {| output_size := 8; with_bias := true |} |} /\
  (4 = 2 * 2)%nat /\ (8 = 2 * 4)%nat.
Proof.
  split; [reflexivity |].
  destruct (init_makes_head_split_exact 8 4 2 _ eq_refl) as (H1 & H2 & _).
  split; [exact H1 | exact H2].
Defined.


(** X11.  A block called without a mask raises on every shard, whatever
    the input: the guarded statement adds [None] to the logits. *)
Theorem call_without_mask_raises (l : TransformerLayerShard)
  (params : list LayerParams) (x : list (list R)) :
  params <> [] ->
  call l params x None = None /\
  (forall p, local_out l p x None = None).
Proof.
  intros Hne. split; [| reflexivity].
  destruct params as [| p params]; [congruence |]. reflexivity.
Qed.

Lemma call_without_mask_raises_witness :
  [Tiny.params] <> [] /\ call Tiny.layer [Tiny.params] Tiny.x None = None.
Proof.
  assert (Hne : [Tiny.params] <> []) by discriminate.
  split; [exact Hne |].
  exact (proj1 (call_without_mask_raises Tiny.layer [Tiny.params] Tiny.x Hne)).
Defined.







Lemma rsum_map_shift (c : R) (x : list R) :
  rsum (map (fun v => v + c) x) = rsum x + INR (length x) * c.
Proof.
  induction x as [| a x IH].
  - simpl. ring.
  - cbn [map length]. rewrite !rsum_cons, IH, S_INR. ring.
Qed.

(** Adding a constant to a row does not change its normalization. *)
Lemma layer_norm_shift (p : LayerNormParams) (c : R) (x : list R) :
  layer_norm p (map (fun v => v + c) x) = layer_norm p x.
Proof.
  destruct x as [| a x]; [reflexivity |].
  set (r := a :: x).
  assert (Hn : INR (length r) <> 0).
  { unfold r. cbn [length]. rewrite S_INR. assert (H := pos_INR (length x)). lra. }
  assert (Hmean : row_mean (map (fun v => v + c) r) = row_mean r + c).
  { unfold row_mean. rewrite rsum_map_shift, length_map. field. exact Hn. }
  assert (Hvar : row_var (map (fun v => v + c) r) = row_var r).
  { unfold row_var. rewrite Hmean, length_map, map_map. f_equal. f_equal.
    apply map_ext. intros v. ring. }
  unfold layer_norm. rewrite Hmean, Hvar, length_map.
  apply map_ext_in. intros j Hj. apply in_seq in Hj.
  rewrite (nth_indep (map (fun v => v + c) r) 0 (0 + c)) by (rewrite length_map; lia).
  rewrite (map_nth (fun v => v + c)).
  f_equal. unfold Rdiv. ring.
Qed.

(** X13.  The block sees its input only up to a constant per token: adding
    to every row of the input a constant of its own changes neither the
    output of a shard nor that of the block, both branches reading the
    normalized rows. *)
Theorem block_ignores_token_offsets (l : TransformerLayerShard)
  (params : list LayerParams) (x x' : list (list R)) (mask : option mask_t) :
  Forall2 (fun r r' => exists c, r' = map (fun v => v + c) r) x x' ->
  (forall p, local_out l p x' mask = local_out l p x mask) /\
  call l params x' mask = call l params x mask.
Proof.
  intros Hshift.
  assert (Hn : forall p, normed p x' = normed p x).
  { intros p. unfold normed.
    induction Hshift as [| r r' x x' (c & ->) _ IH]; [reflexivity |].
    simpl. now rewrite layer_norm_shift, IH. }
  assert (Hlocal : forall p, local_out l p x' mask = local_out l p x mask).
  { intros p. unfold local_out. now rewrite Hn. }
  split; [exact Hlocal |].
  unfold call. f_equal.
  induction params as [| p params IH]; [reflexivity |].
  now rewrite !omap_cons, Hlocal, IH.
Qed.

Lemma block_ignores_token_offsets_witness :
  Forall2 (fun r r' => exists c, r' = map (fun v => v + c) r)
          [[1]; [3]] [[11]; [0]] /\
  call Tiny.layer [Tiny.params] [[11]; [0]] (Some (Stack.causal_mask 2))
  = call Tiny.layer [Tiny.params] [[1]; [3]] (Some (Stack.causal_mask 2)).
Proof.
  assert (H : Forall2 (fun r r' => exists c, r' = map (fun v => v + c) r)
                      [[1]; [3]] [[11]; [0]]).
  { constructor; [| constructor; [| constructor]].
    - exists 10. simpl. repeat f_equal; lra.
    - exists (-3). simpl. repeat f_equal; lra. }
  split; [exact H |].
  exact (proj2 (block_ignores_token_offsets Tiny.layer [Tiny.params] _ _
                  (Some (Stack.causal_mask 2)) H)).
Defined.
End AttentionFacts.

(* --------------------------------------------------------------------- *)
(** ** More on the output head                                            *)
(* --------------------------------------------------------------------- *)

Module LossFacts.
Import Kernels KernelFacts Projection ProjectionFacts.
Local Open Scope R_scope.

(** The [s]-th of the pieces of width [d] of a concatenation. *)
Lemma chunk_of_concat (d : nat) :
  forall (rows : list (list R)) (s : nat) (r : list R),
    Forall (fun r' => length r' = d) rows ->
    nth_error rows s = Some r ->
    firstn d (skipn (s * d) (concat rows)) = r.
Proof.
  induction rows as [| r0 rows IH]; intros s r Hlen Hs.
  - destruct s; discriminate.
  - inversion Hlen as [| ? ? Hr0 Hrest]; subst.
    destruct s as [| s]; simpl in Hs.
    + injection Hs as <-. simpl.
      rewrite firstn_app, Nat.sub_diag, firstn_all. simpl. apply app_nil_r.
    + cbn [concat].
      replace (Datatypes.S s * length r0)%nat
        with (s * length r0 + length r0)%nat by lia.
      rewrite <- skipn_skipn, skipn_app, skipn_all, Nat.sub_diag. simpl.
      now apply IH.
Qed.

Lemma length_concat_uniform (d : nat) (rows : list (list R)) :
  Forall (fun r => length r = d) rows ->
  length (concat rows) = (length rows * d)%nat.
Proof.
  induction 1 as [| r rows Hr _ IH]; [reflexivity |].
  simpl. rewrite length_app, Hr, IH. reflexivity.
Qed.

(** X14.  [__call__] returns one row of the width of the vocabulary per
    token, and lays the slices out in shard order: the positions
    [s * dim_per_shard] onwards hold the logits that shard [s] projects
    from the activation as its own layer norm normalizes it. *)
Theorem call_gathers_in_shard_order (vocab S : nat) (m : ProjectionShard)
  (params : list ProjParams) (x : list R) :
  init vocab S = Some m ->
  length params = S ->
  length (call_token m params x) = vocab /\
  (forall s p,
     nth_error params s = Some p ->
     firstn (dim_per_shard m) (skipn (s * dim_per_shard m) (call_token m params x))
     = linear (proj m) (proj_p p) (layer_norm (ln_p p) x)).
Proof.
  intros Hinit Hlen.
  destruct (projection_init_fields _ _ _ Hinit) as (_ & Hvocab & _ & Hproj).
  assert (Hrows : Forall (fun r => length r = dim_per_shard m)
                         (map (fun p => linear (proj m) (proj_p p)
                                          (layer_norm (ln_p p) x)) params)).
  { apply Forall_forall. intros r Hr. apply in_map_iff in Hr.
    destruct Hr as (p & <- & _). now rewrite length_linear, Hproj. }
  unfold call_token. split.
  - rewrite (length_concat_uniform _ _ Hrows), length_map. lia.
  - intros s p Hs. apply (chunk_of_concat _ _ s _ Hrows).
    now rewrite nth_error_map, Hs.
Qed.

Lemma call_gathers_in_shard_order_witness :
  init 2 2 = Some TinyHead.head /\
  length (call_token TinyHead.head TinyHead.params TinyHead.x) = 2%nat.
Proof.
  split; [reflexivity |].
  exact (proj1 (call_gathers_in_shard_order 2 2 TinyHead.head TinyHead.params
                  TinyHead.x eq_refl eq_refl)).
Defined.

(** The cross-entropy of a row of logits in closed form. *)
Lemma naive_closed_form (logits : list R) (target : Z) (mx : R) :
  rmax logits = Some mx ->
  naive_cross_entropy logits target
  = Some (if in_range 0 (length logits) target
          then ln (rsum (map (fun v => exp (v - mx)) logits))
               - (nth (Z.to_nat target) logits 0 - mx)
          else 0).
Proof.
  intros Hmx. unfold naive_cross_entropy, log_softmax. rewrite Hmx.
  cbn [obind]. f_equal.
  change (rsum (rmul ?a ?c)) with (dot a c).
  unfold arange_from.
  rewrite (dot_onehot_seq target 0 (length logits) _ 0). simpl Nat.add.
  destruct (in_range 0 (length logits) target) eqn:E; [| lra].
  apply EmbeddingFacts.in_range_true in E.
  rewrite !map_map, Nat.sub_0_r.
  rewrite (nth_indep _ 0 ((fun v => v - mx - ln (rsum (map (fun x => exp (x - mx)) logits))) 0))
    by (rewrite length_map; lia).
  rewrite (map_nth (fun v => v - mx - ln (rsum (map (fun x => exp (x - mx)) logits)))).
  lra.
Qed.

Lemma all_logits_length (vocab S : nat) (m : ProjectionShard)
  (params : list ProjParams) (x : list R) :
  init vocab S = Some m ->
  length params = S ->
  length (all_logits m params x) = vocab.
Proof.
  intros Hinit Hlen.
  destruct (projection_init_fields _ _ _ Hinit) as (_ & Hvocab & _ & Hproj).
  unfold all_logits. rewrite (length_concat_uniform (dim_per_shard m)).
  - rewrite length_map. lia.
  - apply Forall_forall. intros r Hr. apply in_map_iff in Hr.
    destruct Hr as (p & <- & _). unfold shard_logits.
    now rewrite length_linear, Hproj.
Qed.

(** X15.  A target outside the vocabulary does not raise: no shard's
    one-hot row holds it and the loss of the token is exactly 0. *)
Theorem unknown_target_has_zero_loss (vocab S : nat) (m : ProjectionShard)
  (params : list ProjParams) (s : nat) (x : list R) (target : Z) :
  init vocab S = Some m ->
  (0 < vocab)%nat ->
  length params = S ->
  (s < S)%nat ->
  (target < 0 \/ Z.of_nat vocab <= target)%Z ->
  loss_token m params s x target = Some 0.
Proof.
  intros Hinit Hvocab Hlen Hs Htarget.
  destruct (loss_token_is_naive vocab S m params s x target Hinit Hvocab Hlen Hs)
    as (v & Hv & Hnaive).
  rewrite Hv. rewrite <- Hnaive.
  assert (Hl := all_logits_length vocab S m params x Hinit Hlen).
  destruct (rmax_nonempty (all_logits m params x)) as (mx & Hmx).
  { intros E. rewrite E in Hl. simpl in Hl. lia. }
  rewrite (naive_closed_form _ _ mx Hmx), Hl.
  replace (in_range 0 vocab target) with false; [reflexivity |].
  symmetry. apply EmbeddingFacts.in_range_false. simpl. lia.
Qed.

Lemma unknown_target_has_zero_loss_witness :
  init 2 2 = Some TinyHead.head /\
  loss_token TinyHead.head TinyHead.params 0 TinyHead.x 2 = Some 0 /\
  loss_token TinyHead.head TinyHead.params 1 TinyHead.x (-1) = Some 0.
Proof.
  split; [reflexivity |]. split.
  - apply (unknown_target_has_zero_loss 2 2 TinyHead.head TinyHead.params 0
             TinyHead.x 2%Z eq_refl); [lia | reflexivity | lia | right; simpl; lia].
  - apply (unknown_target_has_zero_loss 2 2 TinyHead.head TinyHead.params 1
             TinyHead.x (-1)%Z eq_refl); [lia | reflexivity | lia | left; lia].
Defined.

Lemma rsum_exp_shift (mx : R) (l : list R) :
  rsum (map (fun v => exp (v - mx)) l) = rsum (map exp l) * exp (- mx).
Proof.
  induction l as [| a l IH]; simpl.
  - ring.
  - rewrite IH. unfold Rminus. rewrite exp_plus. ring.
Qed.

Lemma rsum_exp_ge_member (l : list R) (t : nat) :
  (t < length l)%nat -> exp (nth t l 0) <= rsum (map exp l).
Proof.
  revert t. induction l as [| a l IH]; intros t Ht; [simpl in Ht; lia |].
  assert (H0 : 0 <= rsum (map exp l)).
  { clear. induction l as [| c l IH]; simpl; [lra |].
    assert (H := exp_pos c). lra. }
  destruct t as [| t]; simpl.
  - lra.
  - assert (H := IH t ltac:(simpl in Ht; lia)). assert (Ha := exp_pos a). lra.
Qed.

(** X16.  For a target of the vocabulary the loss is the negative logarithm
    of the probability that the softmax over the whole vocabulary gives the
    target: [exp (- loss)] is [exp] of the target's logit over the sum of
    [exp] of all logits, the shift by the maximum cancelling out; so the
    loss is never negative. *)
Theorem loss_is_negative_log_probability (vocab S : nat) (m : ProjectionShard)
  (params : list ProjParams) (s : nat) (x : list R) (target : Z) :
  init vocab S = Some m ->
  length params = S ->
  (s < S)%nat ->
  (0 <= target < Z.of_nat vocab)%Z ->
  exists v,
    loss_token m params s x target = Some v /\
    exp (- v)
    = exp (nth (Z.to_nat target) (all_logits m params x) 0)
      / rsum (map exp (all_logits m params x)) /\
    0 <= v.
Proof.
  intros Hinit Hlen Hs Htarget.
  assert (Hvocab : (0 < vocab)%nat) by lia.
  destruct (loss_token_is_naive vocab S m params s x target Hinit Hvocab Hlen Hs)
    as (v & Hv & Hnaive).
  assert (Hl := all_logits_length vocab S m params x Hinit Hlen).
  set (logits := all_logits m params x) in *.
  destruct (rmax_nonempty logits) as (mx & Hmx).
  { intros E. rewrite E in Hl. simpl in Hl. lia. }
  rewrite (naive_closed_form _ _ mx Hmx), Hl in Hnaive.
  replace (in_range 0 vocab target) with true in Hnaive
    by (symmetry; apply EmbeddingFacts.in_range_true; simpl; lia).
  injection Hnaive as Hveq.
  set (t := Z.to_nat target) in *.
  assert (Ht : (t < length logits)%nat) by (unfold t; lia).
  assert (Hmem := rsum_exp_ge_member logits t Ht).
  assert (Hpos := exp_pos (nth t logits 0)).
  assert (Hmxpos := exp_pos (- mx)).
  assert (Hz : rsum (map (fun u => exp (u - mx)) logits)
               = rsum (map exp logits) * exp (- mx)) by apply rsum_exp_shift.
  assert (Hzpos : 0 < rsum (map (fun u => exp (u - mx)) logits)).
  { rewrite Hz. apply Rmult_lt_0_compat; lra. }
  assert (Hexp : exp (- v) = exp (nth t logits 0) / rsum (map exp logits)).
  { rewrite <- Hveq.
    replace (- (ln (rsum (map (fun u => exp (u - mx)) logits)) - (nth t logits 0 - mx)))
      with ((nth t logits 0 + - mx)
            + - ln (rsum (map (fun u => exp (u - mx)) logits))) by ring.
    rewrite !exp_plus, (exp_Ropp (ln _)), exp_ln by exact Hzpos.
    rewrite Hz. field. split; lra. }
  exists v. split; [exact Hv |]. split; [exact Hexp |].
  assert (Hle : exp (- v) <= exp 0).
  { rewrite Hexp, exp_0.
    replace 1 with (rsum (map exp logits) / rsum (map exp logits)) by (field; lra).
    unfold Rdiv. apply Rmult_le_compat_r; [| exact Hmem].
    left. apply Rinv_0_lt_compat. lra. }
  destruct (Rle_or_lt 0 v) as [H | H]; [exact H |].
  exfalso. assert (Hlt : exp 0 < exp (- v)) by (apply exp_increasing; lra). lra.
Qed.

Lemma loss_is_negative_log_probability_witness :
  init 2 2 = Some TinyHead.head /\
  exists v,
    loss_token TinyHead.head TinyHead.params 1 TinyHead.x 1 = Some v /\
    0 <= v.
Proof.
  split; [reflexivity |].
  destruct (loss_is_negative_log_probability 2 2 TinyHead.head TinyHead.params 1
              TinyHead.x 1%Z eq_refl eq_refl)
    as (v & Hv & _ & Hpos); [lia | simpl; lia |].
  exists v. split; assumption.
Defined.

End LossFacts.

(* --------------------------------------------------------------------- *)
(** ** The model stack                                                    *)
(* --------------------------------------------------------------------- *)

Module StackFacts.
Import Kernels KernelFacts.
Local Open Scope R_scope.

Lemma omap_const {A B : Type} (o : option B) (l : list A) :
  omap (fun _ => o) l
  = match l, o with
    | [], _ => Some []
    | _ :: _, None => None
    | _ :: _, Some c => Some (repeat c (length l))
    end.
Proof.
  induction l as [| a l IH]; [reflexivity |].
  rewrite omap_cons, IH. destruct o as [c |]; [| reflexivity].
  destruct l; reflexivity.
Qed.

(** X17.  The model is built exactly when the shard count is not 0 and
    divides the vocabulary and the head count, the head count is not 0 and
    divides the hidden width, and there is at least one layer (the initial
    scale [2. / layer_count] raises for none); it then has [layer_count]
    layers, all built alike. *)
Theorem stack_init_succeeds_iff (shards dim heads layer_count vocab : nat) :
  ((exists c, Stack.init shards dim heads layer_count vocab = Some c) <->
   (shards <> 0 /\ vocab mod shards = 0 /\ layer_count <> 0 /\
    heads <> 0 /\ dim mod heads = 0 /\ heads mod shards = 0)%nat) /\
  (forall c, Stack.init shards dim heads layer_count vocab = Some c ->
     exists l, Layer.init dim heads shards = Some l /\
               Stack.transformer_layers c = repeat l layer_count).
Proof.
  unfold Stack.init, Embedding.init, Projection.init.
  rewrite omap_const, length_seq.
  unfold Layer.init.
  destruct (Nat.eqb_spec shards 0) as [Hs | Hs]; cbn [obind].
  { split; [split |]; [intros [c Hc]; discriminate | tauto | discriminate]. }
  destruct (Nat.eqb_spec (vocab mod shards) 0) as [Hv | Hv]; cbn [obind].
  2: { split; [split |]; [intros [c Hc]; discriminate | tauto | discriminate]. }
  destruct (Nat.eqb_spec layer_count 0) as [Hl | Hl]; cbn [obind].
  { split; [split |]; [intros [c Hc]; discriminate | tauto | discriminate]. }
  destruct layer_count as [| n]; [congruence |]. cbn [seq].
  destruct (Nat.eqb_spec heads 0) as [Hh | Hh]; cbn [orb obind].
  { split; [split |]; [intros [c Hc]; discriminate | tauto | discriminate]. }
  destruct (Nat.eqb_spec (dim mod heads) 0) as [Hd | Hd]; cbn [andb obind].
  2: { split; [split |]; [intros [c Hc]; discriminate | tauto | discriminate]. }
  destruct (Nat.eqb_spec (heads mod shards) 0) as [Hm | Hm]; cbn [andb obind].
  2: { split; [split |]; [intros [c Hc]; discriminate | tauto | discriminate]. }
  split; [split |].
  - intros _. repeat split; assumption.
  - intros _. eexists. reflexivity.
  - intros c [= <-]. eexists. split; reflexivity.
Qed.

Lemma combine_seq_repeat {A : Type} (r : A) (n a : nat) :
  combine (seq a n) (repeat r n) = map (fun i => (i, r)) (seq a n).
Proof.
  revert a. induction n as [| n IH]; intros a; [reflexivity |].
  simpl. now rewrite IH.
Qed.

(** X18.  For every number of tokens [n] the mask that [eval] builds is the
    [n x n] array with [-10^11] strictly above the diagonal and 0 on and
    below it: entry [(i, j)] is [-10^11] exactly when [i < j]. *)
Theorem causal_mask_closed_form (n : nat) :
  Stack.causal_mask n
  = map (fun i => map (fun j => if Nat.ltb i j then - 100000000000 else 0)
                      (seq 0 n))
        (seq 0 n).
Proof.
  unfold Stack.causal_mask, Stack.triu1.
  rewrite !map_repeat, repeat_length, combine_seq_repeat, map_map.
  apply map_ext. intros i. cbn [fst snd].
  rewrite repeat_length, combine_seq_repeat, map_map.
  apply map_ext. intros j. cbn [fst snd].
  destruct (Nat.ltb i j); lra.
Qed.

End StackFacts.

(* --------------------------------------------------------------------- *)
(** ** The driver                                                         *)
(* --------------------------------------------------------------------- *)

Module DriverFacts.
Import Training Driver.

Section Schedule.
Context {L : Precision.ArrayLib} {T : TrainLib}.
Variable get_samples : nat -> sample_t.

(** While the loop index is below 10 every iteration is one [train] and
    one [update(10)]. *)
Lemma update_batches_first_iterations (rest : list call) :
  forall (n a : nat),
    (a + n <= 10)%nat ->
    update_batches 0 (flat_map (loop_body get_samples) (seq a n) ++ rest)
    = repeat (1%nat, 10%Z) n ++ update_batches 0 rest.
Proof.
  induction n as [| n IH]; intros a Ha; [reflexivity |].
  cbn [seq flat_map]. unfold loop_body at 1.
  destruct (Nat.ltb_spec a 10) as [_ | Hge]; [| lia].
  cbn [app update_batches repeat]. f_equal. apply IH. lia.
Qed.

(** From index 10 on there is no [update] any more. *)
Lemma update_batches_later_iterations :
  forall (n a pending : nat),
    (10 <= a)%nat ->
    update_batches pending (flat_map (loop_body get_samples) (seq a n)) = [].
Proof.
  induction n as [| n IH]; intros a pending Ha; [reflexivity |].
  cbn [seq flat_map]. unfold loop_body at 1.
  destruct (Nat.ltb_spec a 10) as [Hlt | _]; [lia |].
  cbn [app update_batches]. apply IH. lia.
Qed.

Lemma count_trains_app (cs1 cs2 : list call) :
  count_trains (cs1 ++ cs2) = (count_trains cs1 + count_trains cs2)%nat.
Proof.
  induction cs1 as [| [s | n] cs1 IH]; simpl; [reflexivity | now rewrite IH | exact IH].
Qed.

(** X19.  Whatever the loader returns and however many iterations run, the
    driver calls [train] once more than the loop iterates, and every
    [update] it makes follows exactly one [train]: the first is passed the
    count 1, the others, one in each of the first 10 iterations, the
    count 10. *)
Theorem driver_updates_after_every_train (it : nat) :
  count_trains (calls get_samples it) = S it /\
  update_batches 0 (calls get_samples it)
  = (1%nat, 1%Z) :: repeat (1%nat, 10%Z) (Nat.min it 10).
Proof.
  unfold calls. split.
  - cbn [app count_trains]. f_equal.
    generalize 0%nat as a. induction it as [| it IH]; intros a; [reflexivity |].
    cbn [seq flat_map]. rewrite count_trains_app, IH.
    unfold loop_body. destruct (Nat.ltb a 10); reflexivity.
  - cbn [app update_batches]. f_equal.
    destruct (Nat.le_gt_cases it 10) as [Hle | Hgt].
    + rewrite Nat.min_l by exact Hle.
      rewrite <- (app_nil_r (flat_map _ _)).
      rewrite (update_batches_first_iterations [] it 0) by lia.
      simpl. apply app_nil_r.
    + rewrite Nat.min_r by lia.
      replace it with (10 + (it - 10))%nat at 1 by lia.
      rewrite seq_app, flat_map_app.
      rewrite (update_batches_first_iterations _ 10 0) by lia.
      rewrite (update_batches_later_iterations (it - 10) (0 + 10) 0) by lia.
      apply app_nil_r.
Qed.

End Schedule.
End DriverFacts.

(* --------------------------------------------------------------------- *)
(** ** The forward pass, end to end                                       *)
(* --------------------------------------------------------------------- *)

Module EvalFacts.
Import Kernels KernelFacts AttentionFacts.
Local Open Scope R_scope.







End EvalFacts.
